(** * zmk-locale-generator: the definition-resolution pipeline of [generator.py]

    A shallow embedding of [zmk_locale_generator/generator.py] and the
    properties its specification states about it.

    Conventions of the embedding:
    - a Python [str] is the list of its code points ([list N]); [ord] is the
      code point of a one-character string;
    - [frozenset[Modifier]] is a [gset Modifier];
    - the insertion-ordered dictionaries whose iteration order reaches the
      output ([self.keys], the [defaultdict] of [_dedupe_same_value]) are
      association lists; [self.codepoint_names], which is only indexed, is a
      [gmap], and it is threaded as state because [_get_key_names] extends
      the lists stored in it in place;
    - the Unicode tables behind [str.casefold], [str.lower] and [str.upper]
      are parameters; closed examples use their restriction to ASCII;
    - [_get_key_definitions] is taken from the list of raw definitions on,
      which [_get_raw_definitions] builds from a layout, and [write_header]
      from its loop over the definitions on: the layout client and the text
      of the file header are not part of the properties stated here. *)

From stdpp Require Import gmap list sorting strings.

Abbreviation str := (list N) (only parsing).

(** The code points of a literal, used to write examples. *)
Definition py (s : string) : str :=
  Ascii.N_of_ascii <$> String.list_ascii_of_string s.

(** ** Python's order on [str]: lexicographic on code points *)

Fixpoint str_lt (s t : str) : bool :=
  match s, t with
  | [], [] => false
  | [], _ :: _ => true
  | _ :: _, [] => false
  | a :: s', b :: t' =>
      if decide (a = b) then str_lt s' t' else bool_decide (a < b)%N
  end.

(** [str.lower], [str.casefold] and [str.upper] on ASCII text. *)
Definition ascii_lower_cp (c : N) : N :=
  if decide (65 ≤ c ≤ 90)%N then (c + 32)%N else c.
Definition ascii_upper_cp (c : N) : N :=
  if decide (97 ≤ c ≤ 122)%N then (c - 32)%N else c.
Definition ascii_lower (s : str) : str := ascii_lower_cp <$> s.
Definition ascii_upper (s : str) : str := ascii_upper_cp <$> s.

(** ** [keys.py]: the usage model *)

(** Modelled from the spec: the [Modifier] enumeration of [keys.py], which is
    not among the sources; the spec lists left and right shift, alt, control
    and meta.  The generator itself names only [LShift] and [RShift]. *)
Inductive Modifier :=
  LCtrl | LShift | LAlt | LGui | RCtrl | RShift | RAlt | RGui.

#[global] Instance Modifier_eq_dec : EqDecision Modifier.
Proof. solve_decision. Defined.

Definition Modifier_to_nat (m : Modifier) : nat :=
  match m with
  | LCtrl => 0 | LShift => 1 | LAlt => 2 | LGui => 3
  | RCtrl => 4 | RShift => 5 | RAlt => 6 | RGui => 7
  end.

Definition Modifier_of_nat (n : nat) : option Modifier :=
  match n with
  | 0 => Some LCtrl | 1 => Some LShift | 2 => Some LAlt | 3 => Some LGui
  | 4 => Some RCtrl | 5 => Some RShift | 6 => Some RAlt | 7 => Some RGui
  | _ => None
  end.

#[global] Instance Modifier_countable : Countable Modifier.
Proof.
  apply (inj_countable Modifier_to_nat Modifier_of_nat). by intros [].
Defined.

(** Modelled from the spec: [HidUsage] of [keys.py], a value compared by its
    three fields; the generator builds it as
    [HidUsage(modifiers, page, id)] and reads the same three fields. *)
Record HidUsage := mkHidUsage {
  modifiers : gset Modifier;
  page : Z;
  id : Z
}.

#[global] Instance HidUsage_eq_dec : EqDecision HidUsage.
Proof. solve_decision. Defined.

#[global] Instance HidUsage_countable : Countable HidUsage.
Proof.
  apply (inj_countable'
           (λ u, (modifiers u, page u, id u))
           (λ t, mkHidUsage t.1.1 t.1.2 t.2)).
  by intros [].
Defined.

(** Modelled from the spec: [KeyAlias] of [keys.py], a single-hop record
    naming another key. *)
Record KeyAlias := mkKeyAlias { alias : str }.

(** A value stored in [self.keys].  The annotation promises
    [HidUsage | KeyAlias]; [_lookup_usage] still has a branch for anything
    else, which [KOther] stands for. *)
Inductive key_entry :=
  | KUsage (u : HidUsage)
  | KAlias (a : KeyAlias)
  | KOther.

(** A value stored in [self.codepoint_names]: [str | list[str]]. *)
Inductive name_entry :=
  | NameStr (s : str)
  | NameList (l : list str).

Abbreviation definition := (HidUsage * str)%type (only parsing).

(** ** Python built-ins used by the generator *)

(** [list.sort(key=...)]: a stable sort that compares keys with [<].  It is
    written as an insertion sort; [list_sort_unique] below shows that every
    stable sort computes the same list. *)
Section stable_sort.
Context {A K : Type} (key : A → K) (lt : K → K → bool).

Fixpoint sort_insert (x : A) (l : list A) : list A :=
  match l with
  | [] => [x]
  | y :: l' =>
      if lt (key y) (key x) then y :: sort_insert x l' else x :: y :: l'
  end.

Definition list_sort (l : list A) : list A := foldr sort_insert [] l.

(** [x] may stand before [y] in a list sorted by [key]. *)
Definition key_le (x y : A) : Prop := lt (key y) (key x) = false.
End stable_sort.

(** [min(seq, key=...)]: the first element whose key is minimal; [None]
    stands for the [ValueError] raised on an empty sequence. *)
Definition py_min {A : Type} (key : A → nat) (seq : list A) : option A :=
  match seq with
  | [] => None
  | x :: rest =>
      Some (foldl (λ m y, if decide (key y < key m) then y else m) x rest)
  end.

(** [d[k].append(u)] on a [defaultdict(list)]: the list of an existing key
    grows, a new key is added after the others. *)
Fixpoint dict_append {V : Type} (k : str) (u : V) (d : list (str * list V))
    : list (str * list V) :=
  match d with
  | [] => [(k, [u])]
  | (k', us) :: d' =>
      if decide (k' = k) then (k', us ++ [u]) :: d'
      else (k', us) :: dict_append k u d'
  end.

(** Modelled from the spec: [unique] of [util.py], which is not among the
    sources.  The spec has the same-usage pass keep, of the definitions that
    share a usage code, only the first one encountered; [unique(seq, key)]
    is read as the generator that yields an item when its key was not seen
    before. *)
Fixpoint unique_from {A K : Type} `{Countable K}
    (key : A → K) (seen : gset K) (seq : list A) : list A :=
  match seq with
  | [] => []
  | x :: rest =>
      if decide (key x ∈ seen) then unique_from key seen rest
      else x :: unique_from key ({[key x]} ∪ seen) rest
  end.

Definition unique {A K : Type} `{Countable K} (key : A → K) (seq : list A)
    : list A :=
  unique_from key ∅ seq.

(** ** [generator.py]: the three reduction passes *)

Definition _has_shift (mods : gset Modifier) : bool :=
  bool_decide (LShift ∈ mods) || bool_decide (RShift ∈ mods).

Definition _remove_shift (mods : gset Modifier) : gset Modifier :=
  mods ∖ {[LShift; RShift]}.

Definition _dedupe_same_usage (defs : list definition) : list definition :=
  unique (λ d, d.1) defs.

Definition group_by_value (defs : list definition)
    : list (str * list HidUsage) :=
  foldl (λ d '(usage, value), dict_append value usage d) [] defs.

Definition shortest_mods (seq : list HidUsage) : option HidUsage :=
  py_min (λ x, size (modifiers x)) seq.

Definition _dedupe_same_value (defs : list definition)
    : option (list definition) :=
  mapM (λ '(k, v), u ← shortest_mods v; Some (u, k)) (group_by_value defs).

Section passes.
(** [str.casefold] and [str.lower]. *)
Variables casefold lower : str → str.

Definition is_duplicate_uppercase
    (base_defs : list definition) (a : definition) : bool :=
  if negb (_has_shift (modifiers a.1)) then false
  else
    let base_mods := _remove_shift (modifiers a.1) in
    existsb
      (λ b, bool_decide (casefold a.2 = casefold b.2)
            && bool_decide (base_mods = modifiers b.1))
      base_defs.

Definition _dedupe_uppercase (defs : list definition) : list definition :=
  let base_defs := filter (λ d, modifiers d.1 = ∅) defs in
  let mod_defs := filter (λ d, modifiers d.1 ≠ ∅) defs in
  let mod_defs :=
    filter (λ d, ¬ is_duplicate_uppercase base_defs d) mod_defs in
  base_defs ++ mod_defs.

(** [_get_key_definitions] from the list of raw definitions on. *)
Definition _get_key_definitions (defs : list definition)
    : option (list definition) :=
  let defs := _dedupe_same_usage defs in
  let defs := _dedupe_uppercase defs in
  defs ← _dedupe_same_value defs;
  Some (list_sort (λ d, lower d.2) str_lt defs).
End passes.

(** ** [generator.py]: exceptions, the key table and the name resolver *)

(** The exceptions the generator can raise: [KeyError] from indexing
    [self.keys], [ValueError] from [_lookup_usage], [TypeError] from [ord]
    applied to a string that is not one character long. *)
Inductive exn :=
  | KeyError (key : str)
  | ValueError (name : str)
  | TypeError.

Inductive result (A : Type) :=
  | Ok (a : A)
  | Raise (e : exn).
Arguments Ok {A} a.
Arguments Raise {A} e.

#[global] Instance result_ret : MRet result := λ A, Ok.
#[global] Instance result_bind : MBind result := λ A B f m,
  match m with Ok a => f a | Raise e => Raise e end.
#[global] Instance result_fmap : FMap result := λ A B f m,
  match m with Ok a => Ok (f a) | Raise e => Raise e end.

(** [d[k]] on a dictionary kept as an association list; [None] stands for
    the [KeyError]. *)
Fixpoint dict_get {V : Type} (d : list (str * V)) (k : str) : option V :=
  match d with
  | [] => None
  | (k', v) :: d' => if decide (k' = k) then Some v else dict_get d' k
  end.

(** [_lookup_usage] calls itself on the alias it finds; [fuel] bounds the
    depth of these calls, and [None] says that the bound was reached. *)
Fixpoint _lookup_usage
    (keys : list (str * key_entry)) (fuel : nat) (name : str)
    : option (result HidUsage) :=
  match fuel with
  | 0 => None
  | S fuel =>
      match dict_get keys name with
      | None => Some (Raise (KeyError name))
      | Some (KAlias a) => _lookup_usage keys fuel (alias a)
      | Some (KUsage value) => Some (Ok value)
      | Some KOther => Some (Raise (ValueError name))
      end
  end.

(** [ord(value)]. *)
Definition ord (s : str) : result N :=
  match s with
  | [c] => Ok c
  | _ => Raise TypeError
  end.

(** The line feed of the text written to the header. *)
Definition nl : str := [10%N].

(** A record of [logging.debug]: the skipped character's code point, the
    character and its usage code (the text of the message is not
    modelled). *)
Inductive log_record :=
  | DebugSkipped (code_point : N) (value : str) (usage : HidUsage).

(** What [write_header] changes: the table [self.codepoint_names], the
    chunks written to [io], and the log. *)
Record writer := mkWriter {
  table : gmap str name_entry;
  io : list str;
  log : list log_record
}.

Section names.
(** [str.upper], and [str(usage)] ([HidUsage.__str__] of [keys.py]). *)
Variable upper : str → str.
Variable usage_str : HidUsage → str.
(** [self.keys], in the order of [items()]. *)
Variable keys : list (str * key_entry).

(** [isinstance(v, KeyAlias) and v.alias in names]. *)
Definition is_alias_of (names : list str) (v : key_entry) : bool :=
  match v with
  | KAlias a => bool_decide (alias a ∈ names)
  | _ => false
  end.

(** The comprehension of [_get_key_names] over [self.keys.items()]. *)
Definition alias_names (names : list str) : list str :=
  fst <$> filter (λ kv, is_alias_of names kv.2) keys.

(** [f"{locale.upper()}_{name}"]. *)
Definition prefixed (locale name : str) : str :=
  upper locale ++ py "_" ++ name.

(** [_get_key_names] returns the names and the table it leaves: [names +=]
    extends in place the list that the table holds for [value], while a
    [str] entry is first copied into a fresh list. *)
Definition _get_key_names
    (codepoint_names : gmap str name_entry) (locale value : str)
    : option (list str) * gmap str name_entry :=
  match codepoint_names !! value with
  | None => (None, codepoint_names)
  | Some (NameStr s) =>
      let names := [s] in
      let names := names ++ alias_names names in
      (Some (prefixed locale <$> names), codepoint_names)
  | Some (NameList l) =>
      let names := l ++ alias_names l in
      (Some (prefixed locale <$> names),
       <[value := NameList names]> codepoint_names)
  end.

(** One turn of the loop of [write_header] over [defs]. *)
Definition write_definition
    (locale : str) (w : writer) (d : definition) : result writer :=
  let '(usage, value) := d in
  let '(names, table') := _get_key_names (table w) locale value in
  match names with
  | Some (main :: aliases) =>
      Ok {| table := table';
            io := io w
                  ++ [nl;
                      py "#define " ++ main ++ py " ("
                      ++ usage_str usage ++ py ")" ++ nl]
                  ++ ((λ a, py "#define " ++ a ++ py " ("
                            ++ main ++ py ")" ++ nl) <$> aliases);
            log := log w |}
  | _ =>
      cp ← ord value;
      Ok {| table := table';
            io := io w;
            log := log w ++ [DebugSkipped cp value usage] |}
  end.

(** The loop of [write_header] over [defs]. *)
Fixpoint write_definitions
    (locale : str) (w : writer) (defs : list definition) : result writer :=
  match defs with
  | [] => Ok w
  | d :: rest =>
      w' ← write_definition locale w d;
      write_definitions locale w' rest
  end.
End names.

(** ** [generator.py]: the raw definition builder *)

(** Modelled from the spec: a keymap of [locales.py], which is not among the
    sources.  The generator reads [keymap.modifiers], a modifier set, and
    [keymap.keys.items()], the pairs of a key name and the character it
    produces, in the order of the dictionary. *)
Record KeyMap := mkKeyMap {
  keymap_modifiers : gset Modifier;
  keymap_keys : list (str * str)
}.

(** Modelled from the spec: a layout of [locales.py]; the generator reads
    [layout.names] and iterates over [layout.keymaps]. *)
Record LocaleLayout := mkLocaleLayout {
  layout_names : list str;
  keymaps : list KeyMap
}.

(** [list(generator)]: the items yielded one after the other; the first
    exception ends the iteration and is raised.  [None] says that a lookup
    did not return within its bound. *)
Fixpoint collect {A B : Type} (f : A → option (result B)) (l : list A)
    : option (result (list B)) :=
  match l with
  | [] => Some (Ok [])
  | x :: l' =>
      match f x with
      | None => None
      | Some (Raise e) => Some (Raise e)
      | Some (Ok y) =>
          match collect f l' with
          | None => None
          | Some (Raise e) => Some (Raise e)
          | Some (Ok ys) => Some (Ok (y :: ys))
          end
      end
  end.

Section raw_definitions.
(** [get_zmk_name] of [keys.py], and [self.keys]; [fuel] bounds the depth of
    every [_lookup_usage]. *)
Variable get_zmk_name : str → str.
Variable keys : list (str * key_entry).
Variable fuel : nat.

(** The body of the inner loop of [_get_raw_definitions]: what it yields
    for one item of a keymap with the modifiers [mods]. *)
Definition raw_definition (mods : gset Modifier) (item : str * str)
    : option (result definition) :=
  let '(key, value) := item in
  match _lookup_usage keys fuel (get_zmk_name key) with
  | None => None
  | Some (Raise e) => Some (Raise e)
  | Some (Ok usage) =>
      let usage :=
        if decide (mods ≠ ∅)
        then mkHidUsage (modifiers usage ∪ mods) (page usage) (id usage)
        else usage in
      Some (Ok (usage, value))
  end.

(** The two nested loops: every item of every keymap, with the modifiers of
    its keymap, in iteration order. *)
Definition layout_items (layout : LocaleLayout)
    : list (gset Modifier * (str * str)) :=
  km ← keymaps layout;
  (λ item, (keymap_modifiers km, item)) <$> keymap_keys km.

(** [list(self._get_raw_definitions(layout))]. *)
Definition _get_raw_definitions (layout : LocaleLayout)
    : option (result (list definition)) :=
  collect (λ mi, raw_definition mi.1 mi.2) (layout_items layout).
End raw_definitions.

(** ** Vocabulary of the specification *)

(** [name] resolves to [u] in [hops] alias steps: its alias chain is finite
    and ends in a usage code. *)
Inductive resolves (keys : list (str * key_entry))
    : nat → str → HidUsage → Prop :=
  | resolves_usage name u :
      dict_get keys name = Some (KUsage u) → resolves keys 0 name u
  | resolves_alias hops name a u :
      dict_get keys name = Some (KAlias a) →
      resolves keys hops (alias a) u →
      resolves keys (S hops) name u.

(** The alias chain of [name] ends, after [hops] steps, in a name that is
    absent from the table or bound to something that is neither a usage code
    nor an alias; [e] is the exception this raises. *)
Inductive fails (keys : list (str * key_entry)) : nat → str → exn → Prop :=
  | fails_absent name :
      dict_get keys name = None → fails keys 0 name (KeyError name)
  | fails_other name :
      dict_get keys name = Some KOther → fails keys 0 name (ValueError name)
  | fails_alias hops name a e :
      dict_get keys name = Some (KAlias a) →
      fails keys hops (alias a) e →
      fails keys (S hops) name e.

(** The name fragments a table entry stands for. *)
Definition fragments (entry : name_entry) : list str :=
  match entry with
  | NameStr s => [s]
  | NameList l => l
  end.

(** What [write_header] leaves besides the log. *)
Definition written (w : writer) : gmap str name_entry * list str :=
  (table w, io w).

(** ** Data of the examples *)

(** A key table with a two-step alias chain, a dangling alias and an entry
    of another type. *)
Definition example_keys : list (str * key_entry) :=
  [(py "EURO", KUsage (mkHidUsage {[RAlt]} 7 8));
   (py "EuroSign", KAlias (mkKeyAlias (py "EURO")));
   (py "Euro2", KAlias (mkKeyAlias (py "EuroSign")));
   (py "Lost", KAlias (mkKeyAlias (py "Nowhere")));
   (py "Odd", KOther)].

(** The euro sign, U+20AC. *)
Definition euro : str := [8364%N].

(** A codepoint name table with a list entry and a [str] entry; it has no
    entry for [A]. *)
Definition example_table : gmap str name_entry :=
  {[ euro := NameList [py "EURO"]; py "a" := NameStr (py "A") ]}.

Definition example_writer : writer := mkWriter example_table [] [].

(** A stand-in for [str(usage)]: page and id as two code points. *)
Definition example_usage_str (u : HidUsage) : str :=
  [Z.to_N (page u); Z.to_N (id u)].

(** ** Vocabulary of the further properties *)

(** [n] alias steps lead from [name] to [name']. *)
Inductive alias_steps (keys : list (str * key_entry))
    : nat → str → str → Prop :=
  | alias_steps_here name : alias_steps keys 0 name name
  | alias_steps_next n name a name' :
      dict_get keys name = Some (KAlias a) →
      alias_steps keys n (alias a) name' →
      alias_steps keys (S n) name name'.

#[global] Instance name_entry_eq_dec : EqDecision name_entry.
Proof. solve_decision. Defined.

(** The table gives [value] no name: it has no entry for it, or an empty
    list. *)
Definition nameless (σ : gmap str name_entry) (d : definition) : Prop :=
  σ !! d.2 = None ∨ σ !! d.2 = Some (NameList []).

#[global] Instance nameless_dec σ d : Decision (nameless σ d).
Proof. unfold nameless. apply _. Defined.

(** The debug record of a skipped definition. *)
Definition skip_record (d : definition) : log_record :=
  DebugSkipped (default 0%N (head d.2)) d.2 d.1.

(** The two [io.write] texts of the loop of [write_header]. *)
Definition define_usage (usage_str : HidUsage → str)
    (main : str) (usage : HidUsage) : str :=
  py "#define " ++ main ++ py " (" ++ usage_str usage ++ py ")" ++ nl.

Definition define_alias (name main : str) : str :=
  py "#define " ++ name ++ py " (" ++ main ++ py ")" ++ nl.

(** A layout with a plain keymap and a shifted one, and a table of keys for
    it; [example_zmk_name] stands for [get_zmk_name]. *)
Definition example_layout : LocaleLayout :=
  mkLocaleLayout [py "German"]
    [mkKeyMap ∅ [(py "a", py "a"); (py "e", py "e")];
     mkKeyMap {[LShift]} [(py "a", py "A")]].

Definition example_zmk_name (key : str) : str := ascii_upper key.

Definition example_layout_keys : list (str * key_entry) :=
  [(py "A", KUsage (mkHidUsage ∅ 7 4));
   (py "E", KAlias (mkKeyAlias (py "EE")));
   (py "EE", KUsage (mkHidUsage ∅ 7 8))].

(** A base definition has an empty modifier set; the others are modified. *)
Definition is_base (d : definition) : Prop := modifiers d.1 = ∅.

(** The definitions of a list come base first when no modified definition
    stands before a base one. *)
Definition bases_first (l : list definition) : Prop :=
  ∃ B M, l = B ++ M ∧ Forall is_base B ∧ Forall (λ d, ¬ is_base d) M.

(** The spec's condition for the uppercase-shift pass to discard [a]: [a]
    holds a shift modifier, and some base definition [b] of [defs] has the
    same character up to case folding and the modifier set that [a] has once
    its shift modifiers are removed. *)
Definition redundant_uppercase
    (casefold : str → str) (defs : list definition) (a : definition) : Prop :=
  (LShift ∈ modifiers a.1 ∨ RShift ∈ modifiers a.1) ∧
  Exists (λ b, modifiers b.1 = ∅ ∧
               casefold a.2 = casefold b.2 ∧
               modifiers a.1 ∖ {[LShift; RShift]} = modifiers b.1) defs.

#[global] Instance redundant_uppercase_dec casefold defs a :
  Decision (redundant_uppercase casefold defs a).
Proof. unfold redundant_uppercase. apply _. Defined.

(** The usage codes that [defs] pairs with the character [k], in order. *)
Definition usages_of (k : str) (defs : list definition) : list HidUsage :=
  fst <$> filter (λ d, d.2 = k) defs.

(** The characters of [defs], each once, in the order of first occurrence. *)
Definition chars_of (defs : list definition) : list str :=
  snd <$> unique (λ d, d.2) defs.

(** * Properties *)

(** ** The order on [str] is a strict total order *)

Lemma str_lt_irrefl (s : str) : str_lt s s = false.
Proof. induction s as [|a s IH]; simpl; [done|]. by rewrite decide_True. Qed.

Lemma str_lt_trans (s t r : str) :
  str_lt s t = true → str_lt t r = true → str_lt s r = true.
Proof.
  revert t r. induction s as [|a s IH]; intros [|b t] [|c r]; simpl; try done.
  repeat case_decide; subst; try done; rewrite ?bool_decide_eq_true;
    try lia; eauto.
Qed.

Lemma str_lt_total (s t : str) :
  str_lt s t = false → str_lt t s = false → s = t.
Proof.
  revert t. induction s as [|a s IH]; intros [|b t]; simpl; try done.
  repeat case_decide; subst; try done; rewrite ?bool_decide_eq_false;
    try lia.
  intros. f_equal. by apply IH.
Qed.

(** ** Lists *)

Section list_facts.
Context {A : Type} (P : A → Prop) `{!∀ x, Decision (P x)}.

Lemma filter_all l : Forall P l → filter P l = l.
Proof.
  induction 1 as [|x l Hx _ IH]; [done|].
  by rewrite filter_cons_True, IH.
Qed.

Lemma filter_none l : Forall (λ x, ¬ P x) l → filter P l = [].
Proof.
  induction 1 as [|x l Hx _ IH]; [done|].
  by rewrite filter_cons_False.
Qed.

Lemma filter_comm (Q : A → Prop) `{!∀ x, Decision (Q x)} (l : list A) :
  filter P (filter Q l) = filter Q (filter P l).
Proof. rewrite !list_filter_filter. apply list_filter_iff. tauto. Qed.
End list_facts.

Lemma filter_partition_perm {A : Type} (P Q R : A → Prop)
    `{!∀ x, Decision (P x), !∀ x, Decision (Q x), !∀ x, Decision (R x)}
    (l : list A) :
  (∀ a, R a ↔ P a ∨ (¬ P a ∧ Q a)) →
  filter P l ++ filter Q (filter (λ a, ¬ P a) l) ≡ₚ filter R l.
Proof.
  intros HR. induction l as [|x l IH]; [done|].
  rewrite !(filter_cons _ x).
  destruct (decide (P x)) as [HP|HP].
  - rewrite decide_False by tauto. rewrite decide_True by (apply HR; tauto).
    simpl. by rewrite IH.
  - rewrite decide_True by done. rewrite filter_cons.
    destruct (decide (Q x)) as [HQ|HQ].
    + rewrite decide_True by (apply HR; tauto).
      by rewrite <-Permutation_middle, IH.
    + rewrite decide_False by (rewrite HR; tauto). done.
Qed.

Lemma NoDup_fmap_inj_on {A B : Type} (f : A → B) (l : list A) x y :
  NoDup (f <$> l) → x ∈ l → y ∈ l → f x = f y → x = y.
Proof.
  induction l as [|a l IH]; intros Hnd Hx Hy Heq.
  { by apply elem_of_nil in Hx. }
  rewrite fmap_cons in Hnd. apply NoDup_cons in Hnd as [Ha Hnd].
  apply elem_of_cons in Hx as [->|Hx]; apply elem_of_cons in Hy as [->|Hy].
  - done.
  - destruct Ha. rewrite Heq. by apply list_elem_of_fmap_2.
  - destruct Ha. rewrite <-Heq. by apply list_elem_of_fmap_2.
  - by apply IH.
Qed.

Lemma NoDup_of_submseteq {A : Type} (l k : list A) :
  l ⊆+ k → NoDup k → NoDup l.
Proof.
  intros [k' Hk]%submseteq_Permutation Hnd. rewrite Hk in Hnd.
  by apply NoDup_app in Hnd as [? _].
Qed.

(** ** [list.sort]: sorted, a permutation, stable, and determined by that *)

Section stable_sort_facts.
Context {A K : Type} `{EqDecision K} (key : A → K) (lt : K → K → bool).
Hypothesis lt_irrefl : ∀ a, lt a a = false.
Hypothesis lt_trans : ∀ a b c, lt a b = true → lt b c = true → lt a c = true.
Hypothesis lt_total : ∀ a b, lt a b = false → lt b a = false → a = b.

Local Abbreviation le := (key_le key lt).
Local Abbreviation same k := (λ y : A, key y = k).

Lemma key_le_refl x : le x x.
Proof. apply lt_irrefl. Qed.

Lemma lt_asym a b : lt a b = true → lt b a = false.
Proof.
  intros Hab. destruct (lt b a) eqn:Hba; [|done].
  by rewrite <-(lt_irrefl a), <-(lt_trans a b a).
Qed.

Lemma key_le_trans x y z : le x y → le y z → le x z.
Proof.
  unfold key_le. intros Hyx Hzy.
  destruct (lt (key z) (key x)) eqn:Hzx; [|done].
  destruct (lt (key x) (key y)) eqn:Hxy.
  - by rewrite <-Hzy, (lt_trans _ _ _ Hzx Hxy).
  - by rewrite <-Hzy, <-(lt_total _ _ Hxy Hyx).
Qed.

Lemma key_le_antisym x y : le x y → le y x → key x = key y.
Proof. unfold key_le. intros ??. by apply lt_total. Qed.

Lemma sort_insert_perm x l : sort_insert key lt x l ≡ₚ x :: l.
Proof.
  induction l as [|y l IH]; simpl; [done|].
  destruct (lt (key y) (key x)); [|done].
  by rewrite IH, Permutation_swap.
Qed.

Lemma list_sort_perm l : list_sort key lt l ≡ₚ l.
Proof.
  induction l as [|x l IH]; simpl; [done|].
  by rewrite sort_insert_perm, IH.
Qed.

Lemma sort_insert_sorted x l :
  StronglySorted le l → StronglySorted le (sort_insert key lt x l).
Proof.
  induction l as [|y l IH]; simpl; intros Hs.
  - repeat constructor.
  - apply StronglySorted_cons in Hs as [Hy Hl].
    destruct (lt (key y) (key x)) eqn:Hyx.
    + apply StronglySorted_cons. split; [|by apply IH].
      rewrite sort_insert_perm. constructor; [|done].
      by apply lt_asym.
    + apply StronglySorted_cons. split.
      * constructor; [done|].
        eapply Forall_impl; [exact Hy|].
        intros z Hz. by apply key_le_trans with y.
      * by apply StronglySorted_cons.
Qed.

Lemma list_sort_sorted l : StronglySorted le (list_sort key lt l).
Proof.
  induction l as [|x l IH]; simpl; [constructor|].
  by apply sort_insert_sorted.
Qed.

Lemma sort_insert_stable k x l :
  filter (same k) (sort_insert key lt x l) = filter (same k) (x :: l).
Proof.
  induction l as [|y l IH]; simpl; [done|].
  destruct (lt (key y) (key x)) eqn:Hyx; [|done].
  rewrite (filter_cons _ y), IH, !filter_cons.
  repeat case_decide; try done.
  assert (key y = key x) as Heq by congruence.
  by rewrite Heq, lt_irrefl in Hyx.
Qed.

Lemma list_sort_stable k l :
  filter (same k) (list_sort key lt l) = filter (same k) l.
Proof.
  induction l as [|x l IH]; simpl; [done|].
  by rewrite sort_insert_stable, !filter_cons, IH.
Qed.

Lemma same_key_filter_nil l : (∀ k, filter (same k) l = []) → l = [].
Proof.
  destruct l as [|y l]; [done|]. intros H. specialize (H (key y)).
  by rewrite filter_cons_True in H.
Qed.

Lemma stable_sorted_unique l1 l2 :
  StronglySorted le l1 → StronglySorted le l2 →
  (∀ k, filter (same k) l1 = filter (same k) l2) → l1 = l2.
Proof.
  revert l2. induction l1 as [|x l1 IH]; intros l2 Hs1 Hs2 Hf.
  - symmetry. apply same_key_filter_nil. intros k. by rewrite <-Hf.
  - destruct l2 as [|y l2].
    { apply same_key_filter_nil. intros k. by rewrite Hf. }
    apply StronglySorted_cons in Hs1 as [Hx Hs1].
    apply StronglySorted_cons in Hs2 as [Hy Hs2].
    assert (x ∈ y :: l2) as Hxin.
    { eapply (list_elem_of_filter (same (key x))). rewrite <-Hf.
      rewrite filter_cons_True by done. left. }
    assert (y ∈ x :: l1) as Hyin.
    { eapply (list_elem_of_filter (same (key y))). rewrite Hf.
      rewrite filter_cons_True by done. left. }
    assert (le y x) as Hyx.
    { apply elem_of_cons in Hxin as [->|Hxin]; [apply key_le_refl|].
      by eapply Forall_forall in Hy. }
    assert (le x y) as Hxy.
    { apply elem_of_cons in Hyin as [->|Hyin]; [apply key_le_refl|].
      by eapply Forall_forall in Hx. }
    pose proof (key_le_antisym _ _ Hxy Hyx) as Hk.
    assert (x = y) as ->.
    { specialize (Hf (key x)).
      rewrite !filter_cons, decide_True in Hf by done.
      rewrite decide_True in Hf by done. by simplify_eq. }
    f_equal. apply IH; [done..|].
    intros k. specialize (Hf k). rewrite !filter_cons in Hf.
    case_decide; by simplify_eq.
Qed.

(** Whatever algorithm [list.sort] runs, a stable sort has one result. *)
Lemma list_sort_unique l l' :
  StronglySorted le l' →
  (∀ k, filter (same k) l' = filter (same k) l) →
  l' = list_sort key lt l.
Proof.
  intros Hs Hf. apply stable_sorted_unique; [done|apply list_sort_sorted|].
  intros k. by rewrite list_sort_stable.
Qed.
End stable_sort_facts.

(** ** [unique]: the first item of every key, in the order of the input *)

Section unique_facts.
Context {A K : Type} `{Countable K} (key : A → K).

Local Abbreviation same k := (λ y : A, key y = k).

Lemma unique_from_filter u seen seq :
  filter (same u) (unique_from key seen seq)
  = if decide (u ∈ seen) then [] else take 1 (filter (same u) seq).
Proof.
  revert seen. induction seq as [|x rest IH]; intros seen; simpl.
  { by case_decide. }
  destruct (decide (key x ∈ seen)) as [Hx|Hx].
  - rewrite IH. case_decide; [done|].
    rewrite (filter_cons_False _ x); [done|]. intros Heq. by rewrite Heq in Hx.
  - rewrite !filter_cons, IH. destruct (decide (key x = u)) as [<-|Hne].
    + rewrite decide_True by set_solver. by rewrite decide_False.
    + destruct (decide (u ∈ seen)).
      * by rewrite decide_True by set_solver.
      * by rewrite decide_False by set_solver.
Qed.

Lemma unique_filter u seq :
  filter (same u) (unique key seq) = take 1 (filter (same u) seq).
Proof. unfold unique. by rewrite unique_from_filter. Qed.

Lemma unique_from_sublist seen seq : sublist (unique_from key seen seq) seq.
Proof.
  revert seen. induction seq as [|x rest IH]; intros seen; simpl; [done|].
  case_decide; [apply sublist_cons|apply sublist_skip]; apply IH.
Qed.

Lemma unique_from_elem x seen seq :
  x ∈ unique_from key seen seq → (key x ∉ seen) ∧ x ∈ seq.
Proof.
  revert seen. induction seq as [|y rest IH]; intros seen; simpl.
  { by intros ?%elem_of_nil. }
  case_decide.
  - intros [??]%IH. split; [done|by right].
  - intros [->|[??]%IH]%elem_of_cons; [split; [done|left]|].
    split; [set_solver|by right].
Qed.

Lemma unique_from_keys k seen seq :
  k ∈ (key <$> unique_from key seen seq) ↔ (k ∉ seen) ∧ k ∈ (key <$> seq).
Proof.
  revert seen. induction seq as [|y rest IH]; intros seen; simpl.
  { split; [by intros ?%elem_of_nil|by intros [_ ?%elem_of_nil]]. }
  destruct (decide (k = key y)) as [->|Hne];
    case_decide; rewrite ?fmap_cons, ?elem_of_cons, IH,
      ?not_elem_of_union, ?elem_of_singleton; naive_solver.
Qed.

Lemma unique_from_NoDup seen seq : NoDup (key <$> unique_from key seen seq).
Proof.
  revert seen. induction seq as [|y rest IH]; intros seen; simpl.
  { constructor. }
  case_decide; [apply IH|]. rewrite fmap_cons. constructor; [|apply IH].
  rewrite unique_from_keys. set_solver.
Qed.

Lemma unique_from_id seen seq :
  NoDup (key <$> seq) → (∀ x, x ∈ seq → key x ∉ seen) →
  unique_from key seen seq = seq.
Proof.
  revert seen. induction seq as [|y rest IH]; intros seen Hnd Hs; simpl.
  { done. }
  rewrite fmap_cons in Hnd. apply NoDup_cons in Hnd as [Hy Hnd].
  rewrite decide_False by (apply Hs; left). f_equal. apply IH; [done|].
  intros x Hx. specialize (Hs x (list_elem_of_further _ _ _ Hx)).
  assert (key x ≠ key y); [|set_solver].
  intros Heq. apply Hy. rewrite <-Heq. by apply list_elem_of_fmap_2.
Qed.

Lemma unique_id seq : NoDup (key <$> seq) → unique key seq = seq.
Proof. intros. apply unique_from_id; [done|set_solver]. Qed.

Lemma unique_from_app seen l1 l2 :
  unique_from key seen (l1 ++ l2)
  = unique_from key seen l1
    ++ unique_from key (list_to_set (key <$> l1) ∪ seen) l2.
Proof.
  revert seen. induction l1 as [|y l1 IH]; intros seen; simpl.
  { by rewrite (left_id_L ∅ (∪)). }
  case_decide.
  - rewrite IH. do 2 f_equal. set_solver.
  - simpl. rewrite IH. do 3 f_equal. set_solver.
Qed.
End unique_facts.

(** ** Pass 2: the uppercase-shift pass *)

Section dedupe_uppercase_facts.
Variable casefold : str → str.

Lemma has_shift_spec mods :
  _has_shift mods = true ↔ LShift ∈ mods ∨ RShift ∈ mods.
Proof.
  unfold _has_shift.
  by rewrite orb_true_iff, !bool_decide_eq_true.
Qed.

Lemma is_duplicate_uppercase_spec base_defs a :
  is_duplicate_uppercase casefold base_defs a = true ↔
  (LShift ∈ modifiers a.1 ∨ RShift ∈ modifiers a.1) ∧
  ∃ b, b ∈ base_defs ∧ casefold a.2 = casefold b.2 ∧
       _remove_shift (modifiers a.1) = modifiers b.1.
Proof.
  unfold is_duplicate_uppercase. rewrite <-has_shift_spec.
  destruct (_has_shift (modifiers a.1)); simpl; [|naive_solver].
  rewrite existsb_exists. split.
  - intros (b & Hb & Hc). apply list_elem_of_In in Hb. split; [done|].
    apply andb_true_iff in Hc as [H1 H2].
    apply bool_decide_eq_true in H1, H2. by exists b.
  - intros (_ & b & Hb & ? & ?). apply list_elem_of_In in Hb.
    exists b. split; [done|].
    apply andb_true_iff. by rewrite !bool_decide_eq_true.
Qed.

Lemma is_duplicate_uppercase_mono bd1 bd2 a :
  bd1 ⊆ bd2 →
  is_duplicate_uppercase casefold bd1 a = true →
  is_duplicate_uppercase casefold bd2 a = true.
Proof.
  intros Hsub. rewrite !is_duplicate_uppercase_spec.
  intros (? & b & ? & ?). split; [done|]. exists b. split; [|done].
  by apply Hsub.
Qed.

Lemma elem_of_dedupe_uppercase a defs :
  a ∈ _dedupe_uppercase casefold defs ↔
  a ∈ defs ∧
  (is_base a ∨
   is_duplicate_uppercase casefold (filter is_base defs) a = false).
Proof.
  unfold _dedupe_uppercase, is_base.
  rewrite elem_of_app, !list_elem_of_filter.
  destruct (is_duplicate_uppercase _ _ a) eqn:Hd; simpl.
  - destruct (decide (modifiers a.1 = ∅)); naive_solver.
  - destruct (decide (modifiers a.1 = ∅)); naive_solver.
Qed.

Lemma dedupe_uppercase_submseteq defs :
  _dedupe_uppercase casefold defs ⊆+ defs.
Proof.
  unfold _dedupe_uppercase.
  trans (filter (λ d, modifiers d.1 = ∅) defs
         ++ filter (λ d, modifiers d.1 ≠ ∅) defs).
  - apply submseteq_app; [done|].
    apply sublist_submseteq. apply sublist_filter.
  - by rewrite (filter_app_complement (λ d, modifiers d.1 = ∅) defs).
Qed.

Lemma dedupe_uppercase_bases_first defs :
  bases_first (_dedupe_uppercase casefold defs).
Proof.
  eexists _, _. split; [done|]. split.
  - apply Forall_forall. by intros d [? _]%list_elem_of_filter.
  - apply Forall_forall.
    by intros d [_ [? _]%list_elem_of_filter]%list_elem_of_filter.
Qed.

Lemma dedupe_uppercase_keeps_all defs :
  (∀ a, a ∈ defs → ¬ is_base a →
        is_duplicate_uppercase casefold (filter is_base defs) a = false) →
  _dedupe_uppercase casefold defs
  = filter is_base defs ++ filter (λ d, ¬ is_base d) defs.
Proof.
  intros Hk. unfold _dedupe_uppercase. f_equal.
  apply filter_all.
  apply Forall_forall. intros d [Hm Hd]%list_elem_of_filter.
  unfold is_base in Hk. rewrite (Hk d Hd Hm). simpl. tauto.
Qed.
End dedupe_uppercase_facts.

(** ** Pass 3: the same-character pass *)

Section py_min_facts.
Context {A : Type} (key : A → nat).

Lemma py_min_fold m rest :
  let r := foldl (λ m y, if decide (key y < key m) then y else m) m rest in
  r ∈ m :: rest ∧ key r ≤ key m ∧ Forall (λ x, key r ≤ key x) rest.
Proof.
  revert m. induction rest as [|y rest IH]; intros m; simpl.
  { split; [left|]. split; [lia|constructor]. }
  case_decide as Hlt.
  - destruct (IH y) as (Hin & Hle & Hall). split; [by right|].
    split; [lia|]. by constructor.
  - destruct (IH m) as (Hin & Hle & Hall). split.
    { apply elem_of_cons in Hin as [->|Hin]; [left|right; by right]. }
    split; [done|]. constructor; [lia|done].
Qed.

Lemma py_min_Some seq m :
  py_min key seq = Some m →
  m ∈ seq ∧ Forall (λ x, key m ≤ key x) seq.
Proof.
  destruct seq as [|x rest]; simpl; [done|]. intros [= <-].
  destruct (py_min_fold x rest) as (Hin & Hle & Hall).
  split; [done|]. by constructor.
Qed.

Lemma py_min_is_Some seq : seq ≠ [] → is_Some (py_min key seq).
Proof. destruct seq; [done|]. by eexists. Qed.
End py_min_facts.

Lemma dict_append_fmap {V : Type} (g : str → list V) (ks : list str) k u :
  NoDup ks →
  dict_append k u ((λ k', (k', g k')) <$> ks)
  = if decide (k ∈ ks)
    then (λ k', (k', g k' ++ if decide (k' = k) then [u] else [])) <$> ks
    else ((λ k', (k', g k')) <$> ks) ++ [(k, [u])].
Proof.
  induction ks as [|k0 ks IH]; intros Hnd.
  { by rewrite decide_False by apply not_elem_of_nil. }
  apply NoDup_cons in Hnd as [Hk0 Hnd].
  rewrite !fmap_cons. cbn [dict_append].
  destruct (decide (k0 = k)) as [->|Hne].
  - rewrite decide_True by left. f_equal.
    apply list_fmap_ext. intros i k' Hk'.
    rewrite decide_False, app_nil_r; [done|].
    intros ->. apply Hk0. by eapply list_elem_of_lookup_2.
  - rewrite IH by done. rewrite app_nil_r.
    destruct (decide (k ∈ ks)).
    + by rewrite decide_True by by right.
    + rewrite decide_False; [done|].
      intros [?|?]%elem_of_cons; congruence.
Qed.

Lemma usages_of_snoc k' defs u k :
  usages_of k' (defs ++ [(u, k)])
  = usages_of k' defs ++ if decide (k' = k) then [u] else [].
Proof.
  unfold usages_of. rewrite filter_app, fmap_app. f_equal.
  destruct (decide (k' = k)) as [->|Hne].
  - by rewrite filter_cons_True.
  - rewrite filter_cons_False; [done|]. simpl. congruence.
Qed.

Lemma elem_of_usages_of u k defs : u ∈ usages_of k defs ↔ (u, k) ∈ defs.
Proof.
  unfold usages_of. rewrite list_elem_of_fmap. split.
  - intros ([u' k'] & -> & [Hk Hin]%list_elem_of_filter). simpl in *.
    by subst.
  - intros Hin. exists (u, k). split; [done|].
    by apply list_elem_of_filter.
Qed.

Lemma elem_of_chars_of k defs : k ∈ chars_of defs ↔ k ∈ defs.*2.
Proof.
  unfold chars_of, unique. rewrite unique_from_keys. set_solver.
Qed.

Lemma NoDup_chars_of defs : NoDup (chars_of defs).
Proof. apply unique_from_NoDup. Qed.

Lemma chars_of_snoc defs u k :
  chars_of (defs ++ [(u, k)])
  = chars_of defs ++ if decide (k ∈ chars_of defs) then [] else [k].
Proof.
  unfold chars_of at 1, unique. rewrite unique_from_app, fmap_app.
  f_equal. cbn [unique_from]. simpl.
  destruct (decide (k ∈ chars_of defs)) as [Hk|Hk];
    rewrite elem_of_chars_of in Hk.
  - by rewrite decide_True by set_solver.
  - by rewrite decide_False by set_solver.
Qed.

Lemma group_by_value_spec defs :
  group_by_value defs = (λ k, (k, usages_of k defs)) <$> chars_of defs.
Proof.
  induction defs as [|[u k] defs IH] using rev_ind; [done|].
  unfold group_by_value in *. rewrite foldl_snoc, IH.
  rewrite dict_append_fmap by apply NoDup_chars_of.
  rewrite chars_of_snoc. destruct (decide (k ∈ chars_of defs)) as [Hk|Hk].
  - rewrite app_nil_r. apply list_fmap_ext. intros i k' _.
    by rewrite usages_of_snoc.
  - rewrite fmap_app. f_equal.
    + apply list_fmap_ext. intros i k' Hk'. rewrite usages_of_snoc.
      rewrite decide_False; [by rewrite app_nil_r|].
      intros ->. apply Hk. by eapply list_elem_of_lookup_2.
    + simpl. rewrite usages_of_snoc, decide_True by done.
      do 2 f_equal. unfold usages_of.
      rewrite filter_none; [done|]. apply Forall_forall. intros d Hd ?.
      apply Hk, elem_of_chars_of. subst. by apply list_elem_of_fmap_2.
Qed.

Section dedupe_same_value_facts.
Implicit Types (defs out : list definition) (d : definition).

Lemma dedupe_same_value_Some defs out :
  _dedupe_same_value defs = Some out ↔
  Forall2 (λ k d, d.2 = k ∧ shortest_mods (usages_of k defs) = Some d.1)
          (chars_of defs) out.
Proof.
  unfold _dedupe_same_value.
  rewrite group_by_value_spec, mapM_Some, Forall2_fmap_l.
  split; intros H; eapply Forall2_impl; try exact H;
    intros k [u k']; simpl;
    destruct (shortest_mods (usages_of k defs)); simpl; naive_solver.
Qed.

Lemma dedupe_same_value_total defs : is_Some (_dedupe_same_value defs).
Proof.
  unfold _dedupe_same_value. rewrite group_by_value_spec.
  apply mapM_is_Some, Forall_fmap, Forall_forall.
  intros k Hk. apply (proj1 (elem_of_chars_of k defs)) in Hk.
  apply list_elem_of_fmap in Hk as ([u k'] & -> & Hu). simpl.
  set (k := k') in *.
  destruct (py_min_is_Some (λ x, size (modifiers x)) (usages_of k defs))
    as [m Hm].
  - intros Hnil. apply (elem_of_usages_of u k defs) in Hu.
    rewrite Hnil in Hu. by apply elem_of_nil in Hu.
  - unfold shortest_mods. simpl. rewrite Hm. by eexists.
Qed.

Lemma dedupe_same_value_chars defs out :
  _dedupe_same_value defs = Some out → out.*2 = chars_of defs.
Proof.
  rewrite dedupe_same_value_Some.
  induction 1 as [|k d ks out [Hk _] _ IH]; [done|].
  by rewrite fmap_cons, IH, Hk.
Qed.

Lemma dedupe_same_value_choice defs out d :
  _dedupe_same_value defs = Some out → d ∈ out →
  shortest_mods (usages_of d.2 defs) = Some d.1.
Proof.
  rewrite dedupe_same_value_Some. intros H Hd.
  eapply (Forall2_Forall_r _ (λ d, shortest_mods (usages_of d.2 defs)
                                   = Some d.1)) in H.
  - by eapply Forall_forall in H.
  - apply Forall_forall. by intros k _ d' [-> ?].
Qed.

Lemma dedupe_same_value_elem defs out u k :
  _dedupe_same_value defs = Some out → (u, k) ∈ out →
  (u, k) ∈ defs ∧
  ∀ u', (u', k) ∈ defs → size (modifiers u) ≤ size (modifiers u').
Proof.
  intros H Hd. pose proof (dedupe_same_value_choice _ _ _ H Hd) as Hc.
  simpl in Hc. apply py_min_Some in Hc as [Hin Hmin].
  split; [by apply elem_of_usages_of|].
  intros u' Hu'%elem_of_usages_of.
  by eapply Forall_forall in Hmin.
Qed.

Lemma dedupe_same_value_NoDup_chars defs out :
  _dedupe_same_value defs = Some out → NoDup out.*2.
Proof.
  intros ->%dedupe_same_value_chars. apply NoDup_chars_of.
Qed.

Lemma dedupe_same_value_NoDup_usages defs out :
  NoDup defs.*1 → _dedupe_same_value defs = Some out → NoDup out.*1.
Proof.
  intros Hnd H. apply NoDup_fmap_2_strong.
  - intros [u k] [u' k'] Hd Hd' Heq. simpl in Heq. subst u'.
    apply (dedupe_same_value_elem _ _ _ _ H) in Hd as [Hd _].
    apply (dedupe_same_value_elem _ _ _ _ H) in Hd' as [Hd' _].
    by apply (NoDup_fmap_inj_on fst defs (u, k) (u, k')).
  - eapply NoDup_fmap_1, dedupe_same_value_NoDup_chars, H.
Qed.

Lemma usages_of_NoDup defs d :
  NoDup defs.*2 → d ∈ defs → usages_of d.2 defs = [d.1].
Proof.
  unfold usages_of. induction defs as [|x defs IH]; intros Hnd Hd.
  { by apply elem_of_nil in Hd. }
  rewrite fmap_cons in Hnd. apply NoDup_cons in Hnd as [Hx Hnd].
  apply elem_of_cons in Hd as [->|Hd].
  - rewrite filter_cons_True by done. rewrite filter_none; [done|].
    apply Forall_forall. intros e He Heq. apply Hx. rewrite <-Heq.
    by apply list_elem_of_fmap_2.
  - rewrite filter_cons_False; [by apply IH|].
    intros Heq. apply Hx. rewrite Heq. by apply list_elem_of_fmap_2.
Qed.

Lemma dedupe_same_value_id defs :
  NoDup defs.*2 → _dedupe_same_value defs = Some defs.
Proof.
  intros Hnd. apply dedupe_same_value_Some.
  unfold chars_of. rewrite unique_id by done.
  apply Forall2_fmap_l, Forall_Forall2_diag, Forall_forall.
  intros d Hd. simpl. split; [done|].
  by rewrite usages_of_NoDup.
Qed.

Lemma dedupe_same_value_bases_first defs out :
  bases_first defs → _dedupe_same_value defs = Some out →
  bases_first out.
Proof.
  intros (B & M & -> & HB & HM) H.
  apply dedupe_same_value_Some in H.
  unfold chars_of, unique in H. rewrite unique_from_app, fmap_app in H.
  apply Forall2_app_inv_l in H as (out1 & out2 & H1 & H2 & ->).
  exists out1, out2. split; [done|]. split.
  - eapply Forall2_Forall_r; [exact H1|]. apply Forall_forall.
    intros k Hk d [<- Hmin].
    apply (proj1 (elem_of_chars_of _ B)) in Hk.
    apply list_elem_of_fmap in Hk as ([u k] & Hk & Hu). simpl in Hk.
    apply py_min_Some in Hmin as [_ Hmin].
    eapply Forall_forall in Hmin.
    2:{ apply elem_of_usages_of. rewrite Hk. apply elem_of_app. by left. }
    eapply Forall_forall in HB; [|exact Hu]. unfold is_base in *.
    simpl in *. rewrite HB, size_empty in Hmin.
    apply leibniz_equiv, size_empty_iff. lia.
  - eapply Forall2_Forall_r; [exact H2|]. apply Forall_forall.
    intros k Hk d [<- Hmin].
    apply (proj1 (unique_from_keys _ _ _ _)) in Hk as [Hk _].
    apply py_min_Some in Hmin as [Hin _].
    apply elem_of_usages_of, elem_of_app in Hin as [Hin|Hin].
    + destruct Hk. apply elem_of_union_l, elem_of_list_to_set.
      by apply (list_elem_of_fmap_2 snd) in Hin.
    + eapply Forall_forall in HM; [|exact Hin]. done.
Qed.
End dedupe_same_value_facts.

(** ** The pipeline of [_get_key_definitions] *)

Lemma bases_first_split (l : list definition) :
  bases_first l → filter is_base l ++ filter (λ d, ¬ is_base d) l = l.
Proof.
  intros (B & M & -> & HB & HM). rewrite !filter_app.
  rewrite (filter_all is_base B), (filter_none is_base M) by done.
  rewrite (filter_all _ M) by done. rewrite (filter_none _ B).
  - by rewrite app_nil_r.
  - eapply Forall_impl; [exact HB|]. tauto.
Qed.

Lemma bases_first_filter (P : definition → Prop) `{!∀ d, Decision (P d)}
    (l : list definition) :
  bases_first l → bases_first (filter P l).
Proof.
  intros (B & M & -> & HB & HM). exists (filter P B), (filter P M).
  rewrite filter_app. split; [done|].
  split; apply Forall_forall; intros d [_ Hd]%list_elem_of_filter.
  - by eapply Forall_forall in HB.
  - by eapply Forall_forall in HM.
Qed.

Section pipeline_facts.
Variables casefold lower : str → str.

Local Abbreviation key := (λ d : definition, lower d.2).
Local Abbreviation same k := (λ d : definition, lower d.2 = k).

Lemma sort_by_lower_sorted (l : list definition) :
  StronglySorted (key_le key str_lt) (list_sort key str_lt l).
Proof.
  apply list_sort_sorted;
    [apply str_lt_irrefl|apply str_lt_trans|apply str_lt_total].
Qed.

Lemma sort_by_lower_stable k (l : list definition) :
  filter (same k) (list_sort key str_lt l) = filter (same k) l.
Proof. apply list_sort_stable, str_lt_irrefl. Qed.

Lemma sort_by_lower_unique (l l' : list definition) :
  StronglySorted (key_le key str_lt) l' →
  (∀ k, filter (same k) l' = filter (same k) l) →
  l' = list_sort key str_lt l.
Proof.
  apply list_sort_unique;
    [apply str_lt_irrefl|apply str_lt_trans|apply str_lt_total].
Qed.

Lemma dedupe_same_usage_NoDup defs : NoDup (_dedupe_same_usage defs).*1.
Proof. apply unique_from_NoDup. Qed.

Lemma dedupe_uppercase_NoDup defs :
  NoDup defs.*1 → NoDup (_dedupe_uppercase casefold defs).*1.
Proof.
  apply NoDup_of_submseteq, fmap_submseteq, dedupe_uppercase_submseteq.
Qed.

(** The pipeline never raises: it sorts what the third pass returns. *)
Lemma get_key_definitions_Some defs :
  ∃ pre,
    _dedupe_same_value
      (_dedupe_uppercase casefold (_dedupe_same_usage defs)) = Some pre ∧
    _get_key_definitions casefold lower defs
    = Some (list_sort key str_lt pre).
Proof.
  destruct (dedupe_same_value_total
              (_dedupe_uppercase casefold (_dedupe_same_usage defs)))
    as [pre Hpre].
  exists pre. split; [done|]. unfold _get_key_definitions.
  by rewrite Hpre.
Qed.

Lemma get_key_definitions_NoDup defs out :
  _get_key_definitions casefold lower defs = Some out →
  NoDup out.*1 ∧ NoDup out.*2.
Proof.
  destruct (get_key_definitions_Some defs) as (pre & Hpre & ->).
  intros [= <-]. rewrite !list_sort_perm. split.
  - eapply dedupe_same_value_NoDup_usages; [|exact Hpre].
    apply dedupe_uppercase_NoDup, dedupe_same_usage_NoDup.
  - by eapply dedupe_same_value_NoDup_chars.
Qed.

(** What the pipeline returns is a fixed point of the pipeline. *)
Lemma get_key_definitions_fixed defs out :
  _get_key_definitions casefold lower defs = Some out →
  _get_key_definitions casefold lower out = Some out.
Proof.
  intros Hout.
  pose proof (get_key_definitions_NoDup _ _ Hout) as [Hnd1 Hnd2].
  destruct (get_key_definitions_Some defs) as (pre & Hpre & Heq).
  rewrite Heq in Hout. injection Hout as Hout.
  assert (∀ d, d ∈ out →
               d ∈ _dedupe_uppercase casefold (_dedupe_same_usage defs))
    as Hin.
  { intros [u k] Hd. rewrite <-Hout, list_sort_perm in Hd.
    by apply (dedupe_same_value_elem _ _ _ _ Hpre) in Hd as [? _]. }
  assert (bases_first pre) as Hbf.
  { eapply dedupe_same_value_bases_first; [|exact Hpre].
    apply dedupe_uppercase_bases_first. }
  unfold _get_key_definitions, _dedupe_same_usage at 1.
  rewrite unique_id by done.
  rewrite dedupe_uppercase_keeps_all; cycle 1.
  { intros a Ha Hbase.
    destruct (is_duplicate_uppercase casefold (filter is_base out) a)
      eqn:Hdup; [|done].
    apply Hin, elem_of_dedupe_uppercase in Ha as [_ [?|Hnd]]; [done|].
    rewrite <-Hnd. symmetry.
    eapply is_duplicate_uppercase_mono; [|exact Hdup].
    intros x [Hb Hx]%list_elem_of_filter.
    apply list_elem_of_filter. split; [done|].
    by apply Hin, elem_of_dedupe_uppercase in Hx as [? _]. }
  rewrite dedupe_same_value_id; cycle 1.
  { by rewrite (filter_app_complement is_base out). }
  simpl. f_equal. symmetry. apply sort_by_lower_unique.
  - rewrite <-Hout. apply sort_by_lower_sorted.
  - intros k. rewrite filter_app.
    rewrite (filter_comm _ is_base), (filter_comm _ (λ d, ¬ is_base d)).
    rewrite bases_first_split; [done|].
    rewrite <-Hout, sort_by_lower_stable. by apply bases_first_filter.
Qed.
End pipeline_facts.

(** ** The claims about the reduction passes *)

(** The second pass never looks at page and id: a definition shifted by
    [LShift] alone is discarded as soon as some base definition has its
    character up to case folding, whatever keys the two belong to. *)
Lemma dedupe_uppercase_compares_modifiers_only
    (casefold : str → str) (p0 i0 p1 i1 : Z) (c c' : str) :
  casefold c' = casefold c →
  _dedupe_uppercase casefold
    [(mkHidUsage ∅ p0 i0, c); (mkHidUsage {[LShift]} p1 i1, c')]
  = [(mkHidUsage ∅ p0 i0, c)].
Proof.
  intros Hc. unfold _dedupe_uppercase.
  assert (({[LShift]} : gset Modifier) ≠ ∅) as Hne by set_solver.
  rewrite !filter_cons, !filter_nil. simpl.
  rewrite ?decide_True by done. rewrite ?decide_False by tauto.
  rewrite decide_True by exact Hne.
  rewrite filter_cons, filter_nil, decide_False; [done|].
  intros Hd. apply Hd. apply Is_true_true.
  apply is_duplicate_uppercase_spec. simpl. split; [set_solver|].
  eexists. split; [left|]. simpl. split; [done|].
  unfold _remove_shift. set_solver.
Qed.

(** C1 (the code departs from it).  The spec has a base definition
    [(U0, 'a')] and a shifted definition [(U1+Shift, 'A')] of another key
    [U1 ≠ U0] both survive the uppercase-shift pass.  The pass compares
    modifier sets only, never page and id: with [U0 = (∅, 7, 4)] and
    [U1 = (∅, 7, 5)] the shifted definition is discarded. *)
Theorem dedupe_uppercase_ignores_page_and_id :
  let U0 := mkHidUsage ∅ 7 4 in
  let U1 := mkHidUsage ∅ 7 5 in
  let U1_shift := mkHidUsage (modifiers U1 ∪ {[LShift]}) (page U1) (id U1) in
  U1 ≠ U0 ∧
  _dedupe_uppercase ascii_lower [(U0, py "a"); (U1_shift, py "A")]
  = [(U0, py "a")].
Proof. split; [done|]. vm_compute. reflexivity. Qed.

(** C4.  The same-usage pass keeps, of the definitions that share a usage
    code, exactly the first one, in the order of the input; of
    [[(U, a); (U, b)]] it keeps [[(U, a)]]. *)
Theorem dedupe_same_usage_keeps_first (defs : list definition) :
  (∀ u, filter (λ d, d.1 = u) (_dedupe_same_usage defs)
        = take 1 (filter (λ d, d.1 = u) defs)) ∧
  sublist (_dedupe_same_usage defs) defs ∧
  (∀ (U : HidUsage) (a b : str),
     _dedupe_same_usage [(U, a); (U, b)] = [(U, a)]).
Proof.
  split; [|split].
  - intros u. apply (unique_filter (λ d : definition, d.1)).
  - apply unique_from_sublist.
  - intros U a b. unfold _dedupe_same_usage, unique. simpl.
    rewrite decide_False by set_solver.
    by rewrite decide_True by set_solver.
Qed.

Lemma redundant_uppercase_spec casefold defs a :
  redundant_uppercase casefold defs a ↔
  ¬ is_base a ∧
  is_duplicate_uppercase casefold (filter is_base defs) a = true.
Proof.
  unfold redundant_uppercase. rewrite is_duplicate_uppercase_spec.
  rewrite Exists_exists. unfold is_base, _remove_shift. split.
  - intros (Hs & b & Hb & Hm & Hc & Heq). split; [set_solver|].
    split; [done|]. exists b. by rewrite list_elem_of_filter.
  - intros (_ & Hs & b & [Hm Hb]%list_elem_of_filter & Hc & Heq).
    split; [done|]. by exists b.
Qed.

(** C5.  The uppercase-shift pass discards [a] exactly when [a] holds a
    shift modifier and some base definition has the same character up to
    case folding and the modifier set of [a] without its shift modifiers;
    every definition with an empty modifier set survives. *)
Theorem dedupe_uppercase_discards
    (casefold : str → str) (defs : list definition) :
  _dedupe_uppercase casefold defs
  ≡ₚ filter (λ a, ¬ redundant_uppercase casefold defs a) defs ∧
  (∀ a, a ∈ _dedupe_uppercase casefold defs ↔
        a ∈ defs ∧ ¬ redundant_uppercase casefold defs a) ∧
  (∀ a, a ∈ defs → modifiers a.1 = ∅ →
        a ∈ _dedupe_uppercase casefold defs).
Proof.
  assert (∀ a, is_base a ∨
               is_duplicate_uppercase casefold (filter is_base defs) a = false
               ↔ ¬ redundant_uppercase casefold defs a) as Hiff.
  { intros a. rewrite redundant_uppercase_spec.
    destruct (is_duplicate_uppercase _ _ a), (decide (is_base a));
      naive_solver. }
  split; [|split].
  - apply (filter_partition_perm is_base
             (λ d, ¬ is_duplicate_uppercase casefold (filter is_base defs) d)).
    intros a. rewrite <-Hiff.
    destruct (is_duplicate_uppercase _ _ a), (decide (is_base a));
      naive_solver.
  - intros a. by rewrite elem_of_dedupe_uppercase, Hiff.
  - intros a Ha Hm. apply elem_of_dedupe_uppercase. split; [done|by left].
Qed.

(** C6.  The same-character pass returns, for every character of its input,
    exactly one definition, and this definition has the fewest modifiers
    among the definitions of the input with that character; of
    [[(U0, x); (U0+Alt, x)]] it keeps [[(U0, x)]]. *)
Theorem dedupe_same_value_keeps_fewest_modifiers (defs : list definition) :
  (∃ out,
     _dedupe_same_value defs = Some out ∧
     NoDup out.*2 ∧
     (∀ k, k ∈ out.*2 ↔ k ∈ defs.*2) ∧
     (∀ u k, (u, k) ∈ out →
        (u, k) ∈ defs ∧
        ∀ u', (u', k) ∈ defs → size (modifiers u) ≤ size (modifiers u'))) ∧
  (∀ (U0 : HidUsage) (x : str),
     _dedupe_same_value
       [(U0, x);
        (mkHidUsage (modifiers U0 ∪ {[LAlt]}) (page U0) (id U0), x)]
     = Some [(U0, x)]).
Proof.
  split.
  - destruct (dedupe_same_value_total defs) as [out Hout]. exists out.
    split; [done|]. split; [by eapply dedupe_same_value_NoDup_chars|].
    split.
    + intros k. rewrite (dedupe_same_value_chars _ _ Hout).
      apply elem_of_chars_of.
    + intros u k. by apply dedupe_same_value_elem.
  - intros U0 x. unfold _dedupe_same_value, group_by_value. simpl.
    rewrite decide_True by done. simpl.
    rewrite decide_False; [done|].
    apply Nat.le_ngt, subseteq_size. set_solver.
Qed.

(** C2.  After the three passes and the sort no two definitions have the
    same usage code and no two have the same character, whatever the raw
    definitions are. *)
Theorem key_definitions_no_duplicates
    (casefold lower : str → str) (defs : list definition) :
  ∃ out,
    _get_key_definitions casefold lower defs = Some out ∧
    NoDup out.*1 ∧ NoDup out.*2.
Proof.
  destruct (get_key_definitions_Some casefold lower defs)
    as (pre & _ & Hout).
  eexists. split; [exact Hout|].
  by eapply get_key_definitions_NoDup.
Qed.

(** C3.  The pipeline (three passes, then the sort) run on its own result
    returns that result unchanged. *)
Theorem key_definitions_idempotent
    (casefold lower : str → str) (defs : list definition) :
  ∃ out,
    _get_key_definitions casefold lower defs = Some out ∧
    _get_key_definitions casefold lower out = Some out.
Proof.
  destruct (get_key_definitions_Some casefold lower defs)
    as (pre & _ & Hout).
  eexists. split; [exact Hout|].
  by eapply get_key_definitions_fixed.
Qed.

(** C7.  The result of the pipeline is what the third pass returns, sorted
    by [character.lower()] and not by usage code: it is a permutation of it,
    ordered by that key, and definitions with equal keys keep the order the
    third pass gave them.  For the characters [b], [A], [a], [C] the order
    is [A], [a], [b], [C]; with [a] before [A] it is [a], [A], [b], [C]. *)
Theorem key_definitions_sorted_by_lowercase
    (casefold lower : str → str) (defs : list definition) :
  (∃ pre out,
     _dedupe_same_value
       (_dedupe_uppercase casefold (_dedupe_same_usage defs)) = Some pre ∧
     _get_key_definitions casefold lower defs = Some out ∧
     out ≡ₚ pre ∧
     StronglySorted
       (λ x y, str_lt (lower y.2) (lower x.2) = false) out ∧
     (∀ k, filter (λ d, lower d.2 = k) out
           = filter (λ d, lower d.2 = k) pre)) ∧
  (∀ u1 u2 u3 u4 : HidUsage,
     list_sort (λ d : definition, ascii_lower d.2) str_lt
       [(u1, py "b"); (u2, py "A"); (u3, py "a"); (u4, py "C")]
     = [(u2, py "A"); (u3, py "a"); (u1, py "b"); (u4, py "C")] ∧
     list_sort (λ d : definition, ascii_lower d.2) str_lt
       [(u1, py "b"); (u3, py "a"); (u2, py "A"); (u4, py "C")]
     = [(u3, py "a"); (u2, py "A"); (u1, py "b"); (u4, py "C")]).
Proof.
  split.
  - destruct (get_key_definitions_Some casefold lower defs)
      as (pre & Hpre & Hout).
    eexists pre, _. split; [done|]. split; [exact Hout|].
    split; [apply list_sort_perm|]. split.
    + apply sort_by_lower_sorted.
    + intros k. apply sort_by_lower_stable.
  - intros u1 u2 u3 u4. split; reflexivity.
Qed.

(** The pipeline run on base definitions of four keys and two modified
    definitions: the shifted [A] is dropped by the second pass, the [Alt]
    definition of [b] by the third, and the rest is sorted. *)
Example key_definitions_run :
  _get_key_definitions ascii_lower ascii_lower
    [(mkHidUsage ∅ 7 5, py "b");
     (mkHidUsage ∅ 7 4, py "a");
     (mkHidUsage {[LShift]} 7 4, py "A");
     (mkHidUsage {[LAlt]} 7 6, py "b");
     (mkHidUsage ∅ 7 6, py "C");
     (mkHidUsage ∅ 7 5, py "x")]
  = Some [(mkHidUsage ∅ 7 4, py "a");
          (mkHidUsage ∅ 7 5, py "b");
          (mkHidUsage ∅ 7 6, py "C")].
Proof. vm_compute. reflexivity. Qed.

(** ** The key table: [_lookup_usage] *)

Section lookup_facts.
Variable keys : list (str * key_entry).

Lemma dict_get_Some {V : Type} (d : list (str * V)) k v :
  dict_get d k = Some v → (k, v) ∈ d.
Proof.
  induction d as [|[k' v'] d IH]; simpl; [done|].
  case_decide; [intros [= ->]; subst; left|right; auto].
Qed.

Lemma lookup_usage_resolves hops name u fuel :
  resolves keys hops name u → hops < fuel →
  _lookup_usage keys fuel name = Some (Ok u).
Proof.
  intros Hr. revert fuel.
  induction Hr as [name u Hg|hops name a u Hg _ IH]; intros [|fuel] ?;
    try lia; simpl; rewrite Hg; [done|].
  apply IH. lia.
Qed.

Lemma lookup_usage_fails hops name e fuel :
  fails keys hops name e → hops < fuel →
  _lookup_usage keys fuel name = Some (Raise e).
Proof.
  intros Hf. revert fuel.
  induction Hf as [name Hg|name Hg|hops name a e Hg _ IH];
    intros [|fuel] ?; try lia; simpl; rewrite Hg; [done..|].
  apply IH. lia.
Qed.

Lemma lookup_usage_Ok fuel name u :
  _lookup_usage keys fuel name = Some (Ok u) →
  ∃ hops, hops < fuel ∧ resolves keys hops name u.
Proof.
  revert name. induction fuel as [|fuel IH]; intros name; simpl; [done|].
  destruct (dict_get keys name) as [[v|a|]|] eqn:Hg; try done.
  - intros [= ->]. exists 0. split; [lia|]. by constructor.
  - intros (hops & ? & ?)%IH. exists (S hops). split; [lia|].
    by econstructor.
Qed.

Lemma lookup_usage_Raise fuel name e :
  _lookup_usage keys fuel name = Some (Raise e) →
  ∃ hops, hops < fuel ∧ fails keys hops name e.
Proof.
  revert name. induction fuel as [|fuel IH]; intros name; simpl; [done|].
  destruct (dict_get keys name) as [[v|a|]|] eqn:Hg; try done.
  - intros (hops & ? & ?)%IH. exists (S hops). split; [lia|].
    by econstructor.
  - intros [= <-]. exists 0. split; [lia|]. by constructor.
  - intros [= <-]. exists 0. split; [lia|]. by constructor.
Qed.

Lemma resolves_hops h h' name u u' :
  resolves keys h name u → resolves keys h' name u' → h = h'.
Proof.
  intros Hr. revert h' u'.
  induction Hr as [name u Hg|h name a u Hg _ IH]; intros h' u';
    inversion 1; simplify_eq; [done|].
  f_equal. eauto.
Qed.

(** The names on a resolving chain are distinct names of the table. *)
Lemma resolves_path hops name u :
  resolves keys hops name u →
  ∃ path : list str,
    length path = S hops ∧ NoDup path ∧
    ∀ n, n ∈ path →
         n ∈ keys.*1 ∧ ∃ h, h ≤ hops ∧ resolves keys h n u.
Proof.
  induction 1 as [name u Hg|hops name a u Hg Hr IH].
  - exists [name]. split; [done|]. split; [apply NoDup_singleton|].
    intros n ->%list_elem_of_singleton. split.
    + apply dict_get_Some in Hg. by apply (list_elem_of_fmap_2 fst) in Hg.
    + exists 0. split; [done|]. by constructor.
  - destruct IH as (path & Hlen & Hnd & Hpath).
    exists (name :: path). split; [simpl; lia|]. split.
    + constructor; [|done]. intros (_ & h & Hh & Hn)%Hpath.
      assert (resolves keys (S hops) name u) as Hs by by econstructor.
      pose proof (resolves_hops _ _ _ _ _ Hn Hs). lia.
    + intros n [->|Hn]%elem_of_cons.
      * split.
        -- apply dict_get_Some in Hg.
           by apply (list_elem_of_fmap_2 fst) in Hg.
        -- exists (S hops). split; [done|]. by econstructor.
      * destruct (Hpath n Hn) as (? & h & ? & ?). split; [done|].
        exists h. split; [lia|done].
Qed.

(** A finite chain is shorter than the table, so a depth of
    [length keys] calls is always enough. *)
Lemma resolves_bound hops name u :
  resolves keys hops name u → hops < length keys.
Proof.
  intros (path & Hlen & Hnd & Hpath)%resolves_path.
  assert (length path ≤ length keys.*1) as Hle.
  { apply submseteq_length, NoDup_submseteq; [done|].
    intros n Hn. by apply Hpath. }
  rewrite length_fmap in Hle. lia.
Qed.
End lookup_facts.

(** C8.  [_lookup_usage] returns the usage code at the end of the alias
    chain of [name], whatever the number of alias steps; it raises when the
    name (or the name an alias leads to) is absent from the table
    ([KeyError]) or bound to something that is neither a usage code nor an
    alias ([ValueError]); when the chain is finite and ends in a usage code
    nothing is raised, and a depth of [length keys] calls reaches the
    result. *)
Theorem lookup_usage_follows_aliases
    (keys : list (str * key_entry)) (name : str) :
  (∀ hops u, resolves keys hops name u →
     (∀ fuel, hops < fuel → _lookup_usage keys fuel name = Some (Ok u)) ∧
     _lookup_usage keys (length keys) name = Some (Ok u) ∧
     (∀ fuel e, _lookup_usage keys fuel name ≠ Some (Raise e))) ∧
  (∀ fuel u, _lookup_usage keys fuel name = Some (Ok u) →
     ∃ hops, resolves keys hops name u) ∧
  (dict_get keys name = None →
     ∀ fuel, _lookup_usage keys (S fuel) name = Some (Raise (KeyError name))) ∧
  (dict_get keys name = Some KOther →
     ∀ fuel,
       _lookup_usage keys (S fuel) name = Some (Raise (ValueError name))) ∧
  (∀ hops e, fails keys hops name e →
     ∀ fuel, hops < fuel → _lookup_usage keys fuel name = Some (Raise e)) ∧
  (∀ fuel e, _lookup_usage keys fuel name = Some (Raise e) →
     ∃ hops, fails keys hops name e).
Proof.
  repeat split.
  - intros fuel ?. by eapply lookup_usage_resolves.
  - eapply lookup_usage_resolves; [done|]. by eapply resolves_bound.
  - intros fuel e (h & Hh & Hf)%lookup_usage_Raise.
    pose proof (lookup_usage_resolves _ _ _ _ (S (hops + h)) H) as Hok.
    pose proof (lookup_usage_fails _ _ _ _ (S (hops + h)) Hf) as Herr.
    rewrite Hok in Herr by lia. by specialize (Herr ltac:(lia)).
  - intros fuel u (hops & _ & ?)%lookup_usage_Ok. by exists hops.
  - intros Hg fuel. simpl. by rewrite Hg.
  - intros Hg fuel. simpl. by rewrite Hg.
  - intros hops e ? fuel ?. by eapply lookup_usage_fails.
  - intros fuel e (hops & _ & ?)%lookup_usage_Raise. by exists hops.
Qed.

Lemma lookup_usage_follows_aliases_witness :
  _lookup_usage example_keys (length example_keys) (py "Euro2")
  = Some (Ok (mkHidUsage {[RAlt]} 7 8)) ∧
  _lookup_usage example_keys 3 (py "Lost")
  = Some (Raise (KeyError (py "Nowhere"))) ∧
  _lookup_usage example_keys 1 (py "Odd")
  = Some (Raise (ValueError (py "Odd"))).
Proof.
  split; [|split].
  - apply (lookup_usage_follows_aliases example_keys (py "Euro2")) with 2.
    repeat (econstructor; try reflexivity).
  - apply (lookup_usage_follows_aliases example_keys (py "Lost")) with 1;
      [|lia].
    repeat (econstructor; try reflexivity).
  - by apply (lookup_usage_follows_aliases example_keys (py "Odd")).
Defined.

(** ** The name resolver and the loop of [write_header] *)

Section names_facts.
Variable upper : str → str.
Variable usage_str : HidUsage → str.
Variable keys : list (str * key_entry).

Implicit Types (σ : gmap str name_entry) (w : writer) (d : definition).

Lemma get_key_names_absent σ locale value :
  σ !! value = None → _get_key_names upper keys σ locale value = (None, σ).
Proof. unfold _get_key_names. by intros ->. Qed.

Lemma get_key_names_present σ locale value entry :
  σ !! value = Some entry →
  _get_key_names upper keys σ locale value
  = (Some (prefixed upper locale
             <$> (fragments entry ++ alias_names keys (fragments entry))),
     match entry with
     | NameStr _ => σ
     | NameList l => <[value := NameList (l ++ alias_names keys l)]> σ
     end).
Proof. unfold _get_key_names. intros ->. by destruct entry. Qed.

Lemma get_key_names_dom σ locale value v :
  (_get_key_names upper keys σ locale value).2 !! v = None ↔ σ !! v = None.
Proof.
  destruct (σ !! value) as [entry|] eqn:Hv.
  - rewrite (get_key_names_present _ _ _ _ Hv). destruct entry; [done|].
    simpl. destruct (decide (value = v)) as [->|Hne].
    + rewrite lookup_insert_eq, Hv. done.
    + by rewrite lookup_insert_ne.
  - by rewrite get_key_names_absent.
Qed.

Lemma elem_of_alias_names names k :
  k ∈ alias_names keys names ↔
  ∃ a, (k, KAlias a) ∈ keys ∧ alias a ∈ names.
Proof.
  unfold alias_names. rewrite list_elem_of_fmap. split.
  - intros ([k' v] & -> & [Hv Hin]%list_elem_of_filter). simpl in *.
    destruct v as [|a|]; try done. exists a. split; [done|].
    by apply bool_decide_unpack in Hv.
  - intros (a & Hin & Ha). exists (k, KAlias a). split; [done|].
    apply list_elem_of_filter. split; [|done]. simpl.
    by apply bool_decide_pack.
Qed.

Lemma write_definition_skip locale w usage cp :
  table w !! [cp] = None →
  write_definition upper usage_str keys locale w (usage, [cp])
  = Ok {| table := table w;
          io := io w;
          log := log w ++ [DebugSkipped cp [cp] usage] |}.
Proof.
  intros Hcp. unfold write_definition.
  by rewrite get_key_names_absent.
Qed.

Lemma write_definition_dom locale w d w' v :
  write_definition upper usage_str keys locale w d = Ok w' →
  table w' !! v = None ↔ table w !! v = None.
Proof.
  destruct d as [usage value]. unfold write_definition.
  pose proof (get_key_names_dom (table w) locale value v) as Hdom.
  destruct (_get_key_names upper keys (table w) locale value)
    as [names σ'].
  destruct names as [[|main aliases]|]; simpl;
    try destruct (ord value); simpl; try done; by intros [= <-].
Qed.

Lemma write_definitions_dom locale w defs w' v :
  write_definitions upper usage_str keys locale w defs = Ok w' →
  table w' !! v = None ↔ table w !! v = None.
Proof.
  revert w. induction defs as [|d defs IH]; intros w; simpl.
  { by intros [= <-]. }
  destruct (write_definition upper usage_str keys locale w d)
    as [w1|e] eqn:H1; simpl; [|done].
  intros Hrest. rewrite (IH _ Hrest).
  by eapply write_definition_dom.
Qed.

Lemma write_definition_written locale w1 w2 d :
  written w1 = written w2 →
  written <$> write_definition upper usage_str keys locale w1 d
  = written <$> write_definition upper usage_str keys locale w2 d.
Proof.
  destruct w1, w2, d as [usage value]. unfold written, write_definition.
  simpl. intros [= -> ->].
  destruct (_get_key_names upper keys _ locale value) as [names σ'].
  destruct names as [[|main aliases]|]; simpl;
    try destruct (ord value); done.
Qed.

Lemma write_definitions_written locale w1 w2 defs :
  written w1 = written w2 →
  written <$> write_definitions upper usage_str keys locale w1 defs
  = written <$> write_definitions upper usage_str keys locale w2 defs.
Proof.
  revert w1 w2. induction defs as [|d defs IH]; intros w1 w2 Hw; simpl.
  { by rewrite Hw. }
  pose proof (write_definition_written locale w1 w2 d Hw) as Hd.
  destruct (write_definition upper usage_str keys locale w1 d) as [w1'|e1],
    (write_definition upper usage_str keys locale w2 d) as [w2'|e2];
    simpl in *; try done.
  apply IH. congruence.
Qed.

Lemma write_definitions_app locale w l1 l2 :
  write_definitions upper usage_str keys locale w (l1 ++ l2)
  = w' ← write_definitions upper usage_str keys locale w l1;
    write_definitions upper usage_str keys locale w' l2.
Proof.
  revert w. induction l1 as [|d l1 IH]; intros w; simpl; [done|].
  destruct (write_definition upper usage_str keys locale w d); simpl;
    [apply IH|done].
Qed.

Lemma write_definitions_skip locale w usage cp pre post :
  table w !! [cp] = None →
  written <$> write_definitions upper usage_str keys locale w
                (pre ++ (usage, [cp]) :: post)
  = written <$> write_definitions upper usage_str keys locale w
                  (pre ++ post).
Proof.
  intros Hcp. rewrite !write_definitions_app.
  destruct (write_definitions upper usage_str keys locale w pre)
    as [w1|e] eqn:Hpre; [|done].
  change (written <$> (w' ← write_definition upper usage_str keys locale
                              w1 (usage, [cp]);
                       write_definitions upper usage_str keys locale w' post)
          = written <$> write_definitions upper usage_str keys locale
                          w1 post).
  rewrite write_definition_skip
    by by rewrite (write_definitions_dom _ _ _ _ _ Hpre).
  by apply write_definitions_written.
Qed.

(** [ord] accepts one character only: a value of two or more code points
    that has no entry raises [TypeError] where a character is skipped. *)
Lemma write_definition_not_a_character locale w usage c1 c2 s :
  table w !! (c1 :: c2 :: s) = None →
  write_definition upper usage_str keys locale w (usage, c1 :: c2 :: s)
  = Raise TypeError.
Proof.
  intros Hv. unfold write_definition.
  by rewrite get_key_names_absent.
Qed.
End names_facts.

(** C9.  A definition whose character has no entry in the codepoint name
    table gets no names and writes nothing: its turn of the loop leaves the
    table and the output as they were and adds one debug record, it raises
    nothing, and the definitions around it are written as if it were not
    there. *)
Theorem unnamed_character_is_skipped
    (upper : str → str) (usage_str : HidUsage → str)
    (keys : list (str * key_entry)) (locale : str) (w : writer)
    (usage : HidUsage) (cp : N) (pre post : list definition) :
  table w !! [cp] = None →
  _get_key_names upper keys (table w) locale [cp] = (None, table w) ∧
  write_definition upper usage_str keys locale w (usage, [cp])
  = Ok {| table := table w;
          io := io w;
          log := log w ++ [DebugSkipped cp [cp] usage] |} ∧
  written <$> write_definitions upper usage_str keys locale w
                (pre ++ (usage, [cp]) :: post)
  = written <$> write_definitions upper usage_str keys locale w
                  (pre ++ post).
Proof.
  intros Hcp. split; [by apply get_key_names_absent|].
  split; [by apply write_definition_skip|by apply write_definitions_skip].
Qed.

Lemma unnamed_character_is_skipped_witness :
  table example_writer !! py "A" = None ∧
  written <$> write_definitions ascii_upper example_usage_str example_keys
                (py "de") example_writer
                ([(mkHidUsage ∅ 7 4, py "a")]
                 ++ (mkHidUsage {[LShift]} 7 4, py "A")
                 :: [(mkHidUsage {[RAlt]} 7 8, euro)])
  = written <$> write_definitions ascii_upper example_usage_str example_keys
                  (py "de") example_writer
                  ([(mkHidUsage ∅ 7 4, py "a")]
                   ++ [(mkHidUsage {[RAlt]} 7 8, euro)]).
Proof.
  split; [reflexivity|].
  apply (unnamed_character_is_skipped ascii_upper example_usage_str
           example_keys (py "de") example_writer
           (mkHidUsage {[LShift]} 7 4) 65%N).
  reflexivity.
Defined.

(** C10 (the code departs from it).  Alias expansion is single-level
    within one call only.  [names +=] extends in place the list that the
    codepoint name table holds, so on a generator that has resolved the
    character before, the aliases found by that call count as fragments.  A
    key [k] that is an alias of such an alias [a] and of no fragment of the
    entry is not among the names of the first call, and is among the names of
    the second call for the same character. *)
Theorem alias_of_alias_is_added_on_second_call
    (upper : str → str) (keys : list (str * key_entry))
    (σ : gmap str name_entry) (locale value : str)
    (l : list str) (k : str) (a : KeyAlias) :
  σ !! value = Some (NameList l) →
  (k, KAlias a) ∈ keys →
  alias a ∈ alias_names keys l →
  (∀ a', (k, KAlias a') ∈ keys → alias a' ∉ l) →
  k ∉ l →
  let first := _get_key_names upper keys σ locale value in
  let second := _get_key_names upper keys first.2 locale value in
  let names1 := l ++ alias_names keys l in
  let names2 := names1 ++ alias_names keys names1 in
  first.1 = Some (prefixed upper locale <$> names1) ∧
  prefixed upper locale k ∉ prefixed upper locale <$> names1 ∧
  second.1 = Some (prefixed upper locale <$> names2) ∧
  prefixed upper locale k ∈ prefixed upper locale <$> names2.
Proof.
  intros Hv Hk Ha Hnot Hkl first second names1 names2.
  assert (first = (Some (prefixed upper locale <$> names1),
                   <[value := NameList names1]> σ)) as Hfirst.
  { unfold first. by rewrite (get_key_names_present _ _ _ _ _ _ Hv). }
  assert (k ∉ alias_names keys l) as Hk1.
  { intros (a' & Hin & Ha')%elem_of_alias_names. by eapply Hnot. }
  assert (k ∈ alias_names keys names1) as Hk2.
  { apply elem_of_alias_names. exists a. split; [done|].
    apply elem_of_app. by right. }
  assert (Inj (=) (=) (prefixed upper locale)) as Hinj.
  { intros x y Hxy. unfold prefixed in Hxy.
    by apply app_inv_head, app_inv_head in Hxy. }
  split; [by rewrite Hfirst|].
  split.
  { rewrite (list_elem_of_fmap_inj _). by intros [Hin|Hin]%elem_of_app. }
  split.
  { unfold second. rewrite Hfirst. simpl.
    by rewrite (get_key_names_present _ _ _ _ _ (NameList names1))
      by apply lookup_insert_eq. }
  apply list_elem_of_fmap_2, elem_of_app. by right.
Qed.

Lemma alias_of_alias_is_added_on_second_call_witness :
  let first :=
    _get_key_names ascii_upper example_keys example_table (py "de") euro in
  let second :=
    _get_key_names ascii_upper example_keys first.2 (py "de") euro in
  first.1 = Some [py "DE_EURO"; py "DE_EuroSign"] ∧
  py "DE_Euro2" ∉ [py "DE_EURO"; py "DE_EuroSign"] ∧
  second.1 = Some [py "DE_EURO"; py "DE_EuroSign";
                   py "DE_EuroSign"; py "DE_Euro2"] ∧
  py "DE_Euro2" ∈ [py "DE_EURO"; py "DE_EuroSign";
                   py "DE_EuroSign"; py "DE_Euro2"].
Proof.
  assert (py "EuroSign" ∈ alias_names example_keys [py "EURO"]) as Ha.
  { change (alias_names example_keys [py "EURO"]) with [py "EuroSign"].
    apply list_elem_of_here. }
  assert (∀ a', (py "Euro2", KAlias a') ∈ example_keys →
                alias a' ∉ [py "EURO"]) as Hnot.
  { intros a' Hin Ha'. apply list_elem_of_singleton in Ha'.
    repeat (apply elem_of_cons in Hin as [Hin|Hin]; [by simplify_eq|]).
    by apply elem_of_nil in Hin. }
  assert (py "Euro2" ∉ [py "EURO"]) as Hkl.
  { intros Hin. by apply list_elem_of_singleton in Hin. }
  exact (alias_of_alias_is_added_on_second_call ascii_upper example_keys
           example_table (py "de") euro [py "EURO"] (py "Euro2")
           (mkKeyAlias (py "EuroSign")) eq_refl
           (list_elem_of_further _ _ _
              (list_elem_of_further _ _ _ (list_elem_of_here _ _)))
           Ha Hnot Hkl).
Defined.

(** The table keeps what a call added to a list entry: a second call for
    the same character starts from the extended list, repeats the alias and
    adds the alias of the alias. *)
Example get_key_names_twice :
  let first :=
    _get_key_names ascii_upper example_keys example_table (py "de") euro in
  let second :=
    _get_key_names ascii_upper example_keys first.2 (py "de") euro in
  first.1 = Some [py "DE_EURO"; py "DE_EuroSign"] ∧
  second.1 = Some [py "DE_EURO"; py "DE_EuroSign";
                   py "DE_EuroSign"; py "DE_Euro2"].
Proof. vm_compute. done. Qed.

(** * Further properties of the code *)

(** ** The shift helpers and the second pass *)

(** X1.  [_remove_shift] leaves no shift modifier, changes nothing when
    there is none, and removing twice is removing once. *)
Theorem remove_shift_has_no_shift (mods : gset Modifier) :
  _has_shift (_remove_shift mods) = false ∧
  (_has_shift mods = false → _remove_shift mods = mods) ∧
  _remove_shift (_remove_shift mods) = _remove_shift mods.
Proof.
  unfold _has_shift, _remove_shift. split; [|split].
  - apply orb_false_iff. rewrite !bool_decide_eq_false. set_solver.
  - intros [H1 H2]%orb_false_iff.
    apply bool_decide_eq_false in H1, H2. set_solver.
  - set_solver.
Qed.

Lemma remove_shift_empty (mods : gset Modifier) :
  _remove_shift mods = ∅ ↔ mods ⊆ {[LShift; RShift]}.
Proof.
  unfold _remove_shift. split.
  - intros H m Hm.
    destruct (decide (m ∈ ({[LShift; RShift]} : gset Modifier)))
      as [|Hn]; [done|].
    assert (m ∈ mods ∖ {[LShift; RShift]}) as Hd
      by (apply elem_of_difference; done).
    rewrite H in Hd. by apply not_elem_of_empty in Hd.
  - intros Hsub. apply leibniz_equiv, elem_of_equiv_empty.
    intros m [Hm Hn]%elem_of_difference. auto.
Qed.

(** X2.  The second pass discards a definition of its input exactly when its
    modifier set is not empty, holds shift modifiers only, and some base
    definition has the same character up to case folding: base definitions
    have no modifier, so nothing but shift may be left of a discarded one.
    A definition with any other modifier always survives. *)
Theorem dedupe_uppercase_discards_shift_only
    (casefold : str → str) (defs : list definition) (a : definition) :
  a ∈ defs →
  a ∉ _dedupe_uppercase casefold defs ↔
  modifiers a.1 ≠ ∅ ∧ modifiers a.1 ⊆ {[LShift; RShift]} ∧
  ∃ b, b ∈ defs ∧ modifiers b.1 = ∅ ∧ casefold a.2 = casefold b.2.
Proof.
  intros Ha. rewrite elem_of_dedupe_uppercase.
  destruct (is_duplicate_uppercase casefold (filter is_base defs) a)
    eqn:Hdup.
  - apply is_duplicate_uppercase_spec in Hdup
      as (Hs & b & [Hb Hin]%list_elem_of_filter & Hc & Hr).
    unfold is_base in Hb. rewrite Hb in Hr.
    apply remove_shift_empty in Hr. split.
    + intros Hn. split; [|split; [done|by exists b]].
      intros He. apply Hn. split; [done|by left].
    + intros (Hne & _) [_ [Hb'|?]]; [by apply Hne|done].
  - split; [intros Hn; destruct Hn; split; [done|by right]|].
    intros (Hne & Hsub & b & Hin & Hb & Hc).
    assert (is_duplicate_uppercase casefold (filter is_base defs) a = true)
      as Ht; [|congruence].
    apply is_duplicate_uppercase_spec. split.
    + destruct (decide (LShift ∈ modifiers a.1)); [by left|right].
      apply set_choose_L in Hne as [m Hm]. set_solver.
    + exists b. split; [by apply list_elem_of_filter|]. split; [done|].
      rewrite Hb. by apply remove_shift_empty.
Qed.

Lemma dedupe_uppercase_discards_shift_only_witness :
  (mkHidUsage {[LShift]} 7 5, py "A")
  ∈ [(mkHidUsage ∅ 7 4, py "a"); (mkHidUsage {[LShift]} 7 5, py "A")] ∧
  (mkHidUsage {[LShift]} 7 5, py "A")
  ∉ _dedupe_uppercase ascii_lower
      [(mkHidUsage ∅ 7 4, py "a"); (mkHidUsage {[LShift]} 7 5, py "A")].
Proof.
  split; [by right; left|].
  apply dedupe_uppercase_discards_shift_only; [by right; left|].
  split; [set_solver|]. split; [set_solver|].
  exists (mkHidUsage ∅ 7 4, py "a"). split; [left|done].
Defined.

(** X3.  The second pass reorders its input: the base definitions come
    first, all of them and in their order, and the modified definitions that
    survive follow in their order. *)
Theorem dedupe_uppercase_puts_bases_first
    (casefold : str → str) (defs : list definition) :
  bases_first (_dedupe_uppercase casefold defs) ∧
  filter is_base (_dedupe_uppercase casefold defs) = filter is_base defs ∧
  sublist (filter (λ d, ¬ is_base d) (_dedupe_uppercase casefold defs))
          (filter (λ d, ¬ is_base d) defs).
Proof.
  split; [apply dedupe_uppercase_bases_first|].
  unfold _dedupe_uppercase.
  set (B := filter (λ d : definition, modifiers d.1 = ∅) defs).
  set (M := filter _ (filter (λ d : definition, modifiers d.1 ≠ ∅) defs)).
  assert (Forall is_base B) as HB.
  { apply Forall_forall. by intros d [? _]%list_elem_of_filter. }
  assert (Forall (λ d, ¬ is_base d) M) as HM.
  { apply Forall_forall.
    by intros d [_ [? _]%list_elem_of_filter]%list_elem_of_filter. }
  assert (Forall (λ d, ¬ ¬ is_base d) B) as HB'.
  { eapply Forall_impl; [exact HB|]. tauto. }
  rewrite !filter_app.
  rewrite (filter_all is_base B HB), (filter_none is_base M HM).
  rewrite (filter_all _ M HM), (filter_none _ B HB'), app_nil_r.
  split; [done|]. apply sublist_filter.
Qed.

(** X4.  The second pass is idempotent: run on its own result it discards
    nothing more and moves nothing. *)
Theorem dedupe_uppercase_idempotent
    (casefold : str → str) (defs : list definition) :
  _dedupe_uppercase casefold (_dedupe_uppercase casefold defs)
  = _dedupe_uppercase casefold defs.
Proof.
  rewrite dedupe_uppercase_keeps_all.
  - apply bases_first_split, dedupe_uppercase_bases_first.
  - intros a Ha Hbase.
    apply elem_of_dedupe_uppercase in Ha as [Ha [?|Hnd]]; [done|].
    destruct (is_duplicate_uppercase casefold
                (filter is_base (_dedupe_uppercase casefold defs)) a)
      eqn:Hdup; [|done].
    rewrite <-Hnd. symmetry.
    eapply is_duplicate_uppercase_mono; [|exact Hdup].
    intros x [Hb Hx]%list_elem_of_filter.
    apply list_elem_of_filter. split; [done|].
    by apply elem_of_dedupe_uppercase in Hx as [? _].
Qed.

(** ** The third pass and the whole pipeline *)

Lemma py_min_fold_first {A : Type} (key : A → nat) (rest pre mid : list A) m :
  Forall (λ x, key m < key x) pre → Forall (λ x, key m ≤ key x) mid →
  ∃ pre' post',
    pre ++ m :: mid ++ rest
    = pre' ++ foldl (λ m y, if decide (key y < key m) then y else m) m rest
           :: post' ∧
    Forall (λ x, key (foldl (λ m y, if decide (key y < key m) then y else m)
                        m rest) < key x) pre' ∧
    Forall (λ x, key (foldl (λ m y, if decide (key y < key m) then y else m)
                        m rest) ≤ key x) post'.
Proof.
  revert pre mid m. induction rest as [|y rest IH]; intros pre mid m Hpre Hmid.
  { exists pre, mid. by rewrite app_nil_r. }
  simpl. case_decide as Hlt.
  - destruct (IH (pre ++ m :: mid) [] y) as (pre' & post' & Heq & H1 & H2).
    + apply Forall_app. split; [|constructor].
      * eapply Forall_impl; [exact Hpre|]. simpl. lia.
      * lia.
      * eapply Forall_impl; [exact Hmid|]. simpl. lia.
    + constructor.
    + exists pre', post'. split; [|done]. rewrite <-Heq.
      by rewrite <-app_assoc.
  - destruct (IH pre (mid ++ [y]) m) as (pre' & post' & Heq & H1 & H2).
    + done.
    + apply Forall_app. split; [done|]. constructor; [lia|constructor].
    + exists pre', post'. split; [|done]. rewrite <-Heq.
      by rewrite <-app_assoc.
Qed.

Lemma py_min_first {A : Type} (key : A → nat) (seq : list A) m :
  py_min key seq = Some m →
  ∃ pre post,
    seq = pre ++ m :: post ∧
    Forall (λ x, key m < key x) pre ∧ Forall (λ x, key m ≤ key x) post.
Proof.
  destruct seq as [|x rest]; simpl; [done|]. intros [= <-].
  destruct (py_min_fold_first key rest [] [] x) as (pre & post & Heq & ?);
    [constructor..|].
  by exists pre, post.
Qed.

(** X5.  The third pass is idempotent: its result has one definition per
    character, and the pass returns such a list as it is. *)
Theorem dedupe_same_value_idempotent (defs : list definition) :
  ∃ out,
    _dedupe_same_value defs = Some out ∧ _dedupe_same_value out = Some out.
Proof.
  destruct (dedupe_same_value_total defs) as [out Hout]. exists out.
  split; [done|]. apply dedupe_same_value_id.
  by eapply dedupe_same_value_NoDup_chars.
Qed.

(** X6.  Among the definitions of a character with the fewest modifiers
    the third pass keeps the first one of its input: every usage code that
    stands before the kept one in the input has strictly more modifiers. *)
Theorem dedupe_same_value_takes_first_minimum (defs : list definition) :
  ∃ out,
    _dedupe_same_value defs = Some out ∧
    ∀ u k, (u, k) ∈ out →
      ∃ pre post,
        usages_of k defs = pre ++ u :: post ∧
        Forall (λ x, size (modifiers u) < size (modifiers x)) pre ∧
        Forall (λ x, size (modifiers u) ≤ size (modifiers x)) post.
Proof.
  destruct (dedupe_same_value_total defs) as [out Hout]. exists out.
  split; [done|]. intros u k Hin.
  pose proof (dedupe_same_value_choice _ _ _ Hout Hin) as Hc.
  by apply py_min_first in Hc.
Qed.

(** X7.  The third pass returns the characters in the order in which they
    first occur in its input, each once. *)
Theorem dedupe_same_value_first_occurrence_order (defs : list definition) :
  ∃ out,
    _dedupe_same_value defs = Some out ∧
    out.*2 = chars_of defs ∧
    sublist out.*2 defs.*2 ∧
    head out.*2 = head defs.*2.
Proof.
  destruct (dedupe_same_value_total defs) as [out Hout]. exists out.
  split; [done|]. rewrite (dedupe_same_value_chars _ _ Hout).
  split; [done|]. unfold chars_of, unique. split.
  - apply fmap_sublist, unique_from_sublist.
  - destruct defs as [|[u k] defs]; [done|]. simpl.
    by rewrite decide_False by set_solver.
Qed.

(** X8.  The pipeline invents nothing: its result is made of raw
    definitions, none taken more often than it occurs in the input, so it is
    not longer than the input. *)
Theorem key_definitions_are_raw_definitions
    (casefold lower : str → str) (defs : list definition) :
  ∃ out,
    _get_key_definitions casefold lower defs = Some out ∧
    out ⊆+ defs ∧ length out ≤ length defs.
Proof.
  destruct (get_key_definitions_Some casefold lower defs)
    as (pre & Hpre & Hout).
  eexists. split; [exact Hout|].
  assert (list_sort (λ d : definition, lower d.2) str_lt pre ⊆+ defs)
    as Hsub; [|split; [done|by apply submseteq_length]].
  rewrite list_sort_perm.
  trans (_dedupe_uppercase casefold (_dedupe_same_usage defs)).
  - apply NoDup_submseteq.
    + eapply NoDup_fmap_1, dedupe_same_value_NoDup_chars, Hpre.
    + intros [u k] Hin.
      by apply (dedupe_same_value_elem _ _ _ _ Hpre) in Hin as [? _].
  - etrans; [apply dedupe_uppercase_submseteq|].
    apply sublist_submseteq, unique_from_sublist.
Qed.

(** ** The key table: cycles and the depth of the recursion *)

Section lookup_depth_facts.
Variable keys : list (str * key_entry).

Lemma alias_steps_exhaust n name name' fuel :
  alias_steps keys n name name' → fuel ≤ n →
  _lookup_usage keys fuel name = None.
Proof.
  intros Hs. revert fuel.
  induction Hs as [name|n name a name' Hg _ IH]; intros [|fuel] ?;
    try done; try lia.
  simpl. rewrite Hg. apply IH. lia.
Qed.

Lemma alias_steps_lookup n name name' fuel :
  alias_steps keys n name name' →
  _lookup_usage keys (n + fuel) name = _lookup_usage keys fuel name'.
Proof.
  induction 1 as [name|n name a name' Hg _ IH]; [done|].
  simpl. by rewrite Hg.
Qed.

Lemma fails_hops h h' name e e' :
  fails keys h name e → fails keys h' name e' → h = h'.
Proof.
  intros Hf. revert h' e'.
  induction Hf as [name Hg|name Hg|h name a e Hg _ IH]; intros h' e';
    inversion 1; simplify_eq; [done..|].
  f_equal. eauto.
Qed.

(** The aliases on a failing chain are distinct names of the table. *)
Lemma fails_path hops name e :
  fails keys hops name e →
  ∃ path : list str,
    length path = hops ∧ NoDup path ∧
    ∀ n, n ∈ path →
         n ∈ keys.*1 ∧ ∃ h, 1 ≤ h ≤ hops ∧ fails keys h n e.
Proof.
  induction 1 as [name Hg|name Hg|hops name a e Hg Hf IH].
  - exists []. split; [done|]. split; [constructor|].
    by intros n ?%elem_of_nil.
  - exists []. split; [done|]. split; [constructor|].
    by intros n ?%elem_of_nil.
  - destruct IH as (path & Hlen & Hnd & Hpath).
    assert (fails keys (S hops) name e) as Hs by by econstructor.
    exists (name :: path). split; [simpl; lia|]. split.
    + constructor; [|done]. intros (_ & h & Hh & Hn)%Hpath.
      pose proof (fails_hops _ _ _ _ _ Hn Hs). lia.
    + intros n [->|Hn]%elem_of_cons.
      * split.
        -- apply dict_get_Some in Hg.
           by apply (list_elem_of_fmap_2 fst) in Hg.
        -- exists (S hops). split; [lia|done].
      * destruct (Hpath n Hn) as (? & h & ? & ?). split; [done|].
        exists h. split; [lia|done].
Qed.

Lemma fails_bound hops name e :
  fails keys hops name e → hops ≤ length keys.
Proof.
  intros (path & Hlen & Hnd & Hpath)%fails_path.
  assert (length path ≤ length keys.*1) as Hle.
  { apply submseteq_length, NoDup_submseteq; [done|].
    intros n Hn. by apply Hpath. }
  rewrite length_fmap in Hle. lia.
Qed.
End lookup_depth_facts.

(** X9.  [_lookup_usage] has no guard against cycles: for a name whose
    alias chain leads back to it the recursion does not return within any
    depth.  (Python ends it with [RecursionError].) *)
Theorem lookup_usage_cycle_never_returns
    (keys : list (str * key_entry)) (n : nat) (name : str) :
  alias_steps keys (S n) name name →
  ∀ fuel, _lookup_usage keys fuel name = None.
Proof.
  intros Hs fuel. induction (lt_wf fuel) as [fuel _ IH].
  destruct (decide (fuel ≤ S n)) as [Hle|Hgt].
  - by eapply alias_steps_exhaust.
  - replace fuel with (S n + (fuel - S n)) by lia.
    rewrite (alias_steps_lookup _ _ _ _ _ Hs). apply IH. lia.
Qed.

Lemma lookup_usage_cycle_never_returns_witness :
  alias_steps
    [(py "A", KAlias (mkKeyAlias (py "B")));
     (py "B", KAlias (mkKeyAlias (py "A")))] 2 (py "A") (py "A") ∧
  _lookup_usage
    [(py "A", KAlias (mkKeyAlias (py "B")));
     (py "B", KAlias (mkKeyAlias (py "A")))] 1000 (py "A") = None.
Proof.
  assert (alias_steps
            [(py "A", KAlias (mkKeyAlias (py "B")));
             (py "B", KAlias (mkKeyAlias (py "A")))] 2 (py "A") (py "A"))
    as Hs by repeat (econstructor; try reflexivity).
  split; [exact Hs|].
  exact (lookup_usage_cycle_never_returns _ 1 _ Hs 1000).
Defined.

(** X10.  A depth of one call more than the table has entries decides every
    lookup: whatever [_lookup_usage] returns or raises within some depth it
    returns or raises within that one, and when it has not returned by then
    it never returns. *)
Theorem lookup_usage_decided_by_table_size
    (keys : list (str * key_entry)) (name : str) :
  (∀ fuel r, _lookup_usage keys fuel name = Some r →
             _lookup_usage keys (S (length keys)) name = Some r) ∧
  (_lookup_usage keys (S (length keys)) name = None →
   ∀ fuel, _lookup_usage keys fuel name = None).
Proof.
  assert (∀ fuel r, _lookup_usage keys fuel name = Some r →
                    _lookup_usage keys (S (length keys)) name = Some r)
    as Hdec.
  { intros fuel [u|e] Hr.
    - apply lookup_usage_Ok in Hr as (hops & _ & Hres).
      eapply lookup_usage_resolves; [done|].
      apply resolves_bound in Hres. lia.
    - apply lookup_usage_Raise in Hr as (hops & _ & Hf).
      eapply lookup_usage_fails; [done|].
      apply fails_bound in Hf. lia. }
  split; [done|]. intros Hnone fuel.
  destruct (_lookup_usage keys fuel name) as [r|] eqn:Hr; [|done].
  apply Hdec in Hr. congruence.
Qed.

(** ** The name resolver and the loop of [write_header], continued *)

Section names_state_facts.
Variable upper : str → str.
Variable usage_str : HidUsage → str.
Variable keys : list (str * key_entry).

Implicit Types (σ : gmap str name_entry) (w : writer) (d : definition).

Lemma alias_names_nil : alias_names keys [] = [].
Proof.
  unfold alias_names. rewrite filter_none; [done|].
  apply Forall_forall. intros [k [u|a|]] _; simpl; tauto.
Qed.

Lemma alias_names_mono names names' k :
  (∀ n, n ∈ names → n ∈ names') →
  k ∈ alias_names keys names → k ∈ alias_names keys names'.
Proof.
  intros Hsub (a & ? & ?)%elem_of_alias_names.
  apply elem_of_alias_names. exists a. auto.
Qed.

Lemma get_key_names_nameless σ locale value d :
  nameless (_get_key_names upper keys σ locale value).2 d ↔ nameless σ d.
Proof.
  unfold nameless. destruct (σ !! value) as [entry|] eqn:Hv.
  - rewrite (get_key_names_present _ _ _ _ _ _ Hv). destruct entry; [done|].
    simpl. destruct (decide (value = d.2)) as [<-|Hne].
    + rewrite lookup_insert_eq, Hv. split; (intros [|[= Hl]]; [done|right]).
      * apply app_eq_nil in Hl as [-> _]. done.
      * subst. by rewrite alias_names_nil.
    + by rewrite lookup_insert_ne.
  - by rewrite get_key_names_absent.
Qed.

Lemma get_key_names_falsy σ locale u value :
  nameless σ (u, value) ↔
  (_get_key_names upper keys σ locale value).1 = None ∨
  (_get_key_names upper keys σ locale value).1 = Some [].
Proof.
  unfold nameless. simpl. destruct (σ !! value) as [entry|] eqn:Hv.
  - rewrite (get_key_names_present _ _ _ _ _ _ Hv). simpl. split.
    + intros [|[= ->]]; [done|]. right. simpl.
      by rewrite alias_names_nil.
    + intros [|[= Hl]]; [done|]. right.
      apply fmap_nil_inv, app_eq_nil in Hl as [Hl _].
      destruct entry; simpl in Hl; by subst.
  - rewrite get_key_names_absent by done. simpl. tauto.
Qed.

Lemma get_key_names_empty_list σ locale value :
  σ !! value = Some (NameList []) →
  _get_key_names upper keys σ locale value = (Some [], σ).
Proof.
  intros Hv. rewrite (get_key_names_present _ _ _ _ _ _ Hv). simpl.
  rewrite alias_names_nil. simpl. by rewrite insert_id.
Qed.

(** A turn of the loop for a definition without names. *)
Lemma write_definition_nameless locale w d :
  nameless (table w) d →
  write_definition upper usage_str keys locale w d
  = cp ← ord d.2;
    Ok {| table := table w; io := io w;
          log := log w ++ [DebugSkipped cp d.2 d.1] |}.
Proof.
  destruct d as [usage value]. unfold write_definition.
  intros [Hv|Hv]; simpl in Hv.
  - by rewrite get_key_names_absent.
  - by rewrite get_key_names_empty_list.
Qed.

(** A turn of the loop for a definition with names. *)
Lemma write_definition_with_names locale w d :
  ¬ nameless (table w) d →
  ∃ main aliases,
    (_get_key_names upper keys (table w) locale d.2).1
    = Some (main :: aliases) ∧
    write_definition upper usage_str keys locale w d
    = Ok {| table := (_get_key_names upper keys (table w) locale d.2).2;
            io := io w
                  ++ [nl; define_usage usage_str main d.1]
                  ++ ((λ a, define_alias a main) <$> aliases);
            log := log w |}.
Proof.
  destruct d as [usage value]. intros Hn.
  rewrite (get_key_names_falsy _ locale) in Hn.
  unfold write_definition. simpl in *.
  destruct (_get_key_names upper keys (table w) locale value)
    as [[[|main aliases]|] σ']; simpl in *; [tauto| |tauto].
  by exists main, aliases.
Qed.

Lemma write_definition_step locale w d w' :
  write_definition upper usage_str keys locale w d = Ok w' →
  (∀ d', nameless (table w') d' ↔ nameless (table w) d') ∧
  io w `prefix_of` io w' ∧
  log w' = log w ++ (if decide (nameless (table w) d)
                     then [skip_record d] else []).
Proof.
  destruct (decide (nameless (table w) d)) as [Hn|Hn].
  - rewrite write_definition_nameless by done.
    destruct d as [usage [|cp [|??]]]; simpl; try done.
    intros [= <-]. simpl. done.
  - destruct (write_definition_with_names locale w d Hn)
      as (main & aliases & _ & ->).
    intros [= <-]. simpl. split; [|split].
    + intros d'. apply get_key_names_nameless.
    + by eexists.
    + by rewrite app_nil_r.
Qed.

Lemma write_definitions_steps locale w defs w' :
  write_definitions upper usage_str keys locale w defs = Ok w' →
  (∀ d', nameless (table w') d' ↔ nameless (table w) d') ∧
  io w `prefix_of` io w' ∧
  log w' = log w ++ (skip_record <$> filter (nameless (table w)) defs).
Proof.
  revert w. induction defs as [|d defs IH]; intros w; simpl.
  { intros [= <-]. by rewrite app_nil_r. }
  destruct (write_definition upper usage_str keys locale w d)
    as [w1|e] eqn:H1; simpl; [|done].
  intros (Hn & Hio & Hlog)%IH.
  apply write_definition_step in H1 as (Hn1 & Hio1 & Hlog1).
  split; [|split].
  - intros d'. by rewrite Hn, Hn1.
  - by etrans.
  - rewrite Hlog, Hlog1, <-app_assoc. f_equal.
    rewrite (list_filter_iff _ (nameless (table w)) defs) by done.
    rewrite filter_cons. by case_decide.
Qed.
End names_state_facts.

(** X11.  [_get_key_names] is repeatable for a character without entry or
    with a [str] entry: the table is not changed and a second call returns
    the same.  For a list entry the table keeps the extended list: the
    names of a second call start with the names of the first, and they are
    more as soon as the first call found an alias. *)
Theorem get_key_names_second_call
    (upper : str → str) (keys : list (str * key_entry))
    (σ : gmap str name_entry) (locale value : str) :
  (σ !! value = None ∨ (∃ s, σ !! value = Some (NameStr s)) →
   (_get_key_names upper keys σ locale value).2 = σ) ∧
  (∀ l, σ !! value = Some (NameList l) →
     ∃ names extra,
       (_get_key_names upper keys σ locale value).1 = Some names ∧
       (_get_key_names upper keys
          (_get_key_names upper keys σ locale value).2 locale value).1
       = Some (names ++ extra) ∧
       (extra = [] ↔ alias_names keys l = [])).
Proof.
  split.
  - intros [Hv|[s Hv]].
    + by rewrite get_key_names_absent.
    + by rewrite (get_key_names_present _ _ _ _ _ _ Hv).
  - intros l Hv. rewrite (get_key_names_present _ _ _ _ _ _ Hv). simpl.
    rewrite (get_key_names_present _ _ _ _ _
               (NameList (l ++ alias_names keys l)))
      by apply lookup_insert_eq.
    simpl. eexists _, _. split; [done|]. rewrite fmap_app.
    split; [done|]. split.
    + intros Hnil%fmap_nil_inv.
      destruct (alias_names keys l) as [|k ks] eqn:Hl; [done|].
      assert (k ∈ alias_names keys (l ++ k :: ks)) as Hk.
      { apply (alias_names_mono _ l); [set_solver|].
        rewrite Hl. left. }
      rewrite Hnil in Hk. by apply elem_of_nil in Hk.
    + intros Hl. by rewrite Hl, app_nil_r, Hl.
Qed.

(** X12.  A character whose table entry is the empty list is treated like a
    character without entry: [_get_key_names] returns the empty list, which
    the loop takes for no names; nothing is written, the table stays as it
    is and one debug record is added. *)
Theorem empty_name_list_is_skipped
    (upper : str → str) (usage_str : HidUsage → str)
    (keys : list (str * key_entry)) (locale : str) (w : writer)
    (usage : HidUsage) (cp : N) :
  table w !! [cp] = Some (NameList []) →
  _get_key_names upper keys (table w) locale [cp] = (Some [], table w) ∧
  write_definition upper usage_str keys locale w (usage, [cp])
  = Ok {| table := table w;
          io := io w;
          log := log w ++ [DebugSkipped cp [cp] usage] |}.
Proof.
  intros Hv. split; [by apply get_key_names_empty_list|].
  rewrite write_definition_nameless; [done|]. by right.
Qed.

Lemma empty_name_list_is_skipped_witness :
  write_definition ascii_upper example_usage_str example_keys (py "de")
    (mkWriter {[ py "q" := NameList [] ]} [] []) (mkHidUsage ∅ 7 20, py "q")
  = Ok (mkWriter {[ py "q" := NameList [] ]} []
          [DebugSkipped 113 (py "q") (mkHidUsage ∅ 7 20)]).
Proof.
  exact (proj2 (empty_name_list_is_skipped ascii_upper example_usage_str
                  example_keys (py "de")
                  (mkWriter {[ py "q" := NameList [] ]} [] [])
                  (mkHidUsage ∅ 7 20) 113%N eq_refl)).
Defined.

(** X13.  The loop of [write_header] only appends to the output, and it
    neither adds a character to the codepoint name table nor removes one. *)
Theorem write_definitions_only_appends
    (upper : str → str) (usage_str : HidUsage → str)
    (keys : list (str * key_entry)) (locale : str) (w w' : writer)
    (defs : list definition) :
  write_definitions upper usage_str keys locale w defs = Ok w' →
  io w `prefix_of` io w' ∧ dom (table w') = dom (table w).
Proof.
  intros Hw. split.
  - by apply write_definitions_steps in Hw as (_ & ? & _).
  - apply set_eq. intros v. rewrite !elem_of_dom, <-!not_eq_None_Some.
    by rewrite (write_definitions_dom _ _ _ _ _ _ _ v Hw).
Qed.

Lemma write_definitions_only_appends_witness :
  ∃ w',
    write_definitions ascii_upper example_usage_str example_keys (py "de")
      (mkWriter example_table [py "/* header */"] [])
      [(mkHidUsage ∅ 7 4, py "a"); (mkHidUsage {[RAlt]} 7 8, euro)]
    = Ok w' ∧
    [py "/* header */"] `prefix_of` io w' ∧
    dom (table w') = dom example_table.
Proof.
  destruct (write_definitions ascii_upper example_usage_str example_keys
              (py "de") (mkWriter example_table [py "/* header */"] [])
              [(mkHidUsage ∅ 7 4, py "a"); (mkHidUsage {[RAlt]} 7 8, euro)])
    as [w'|e] eqn:Hw; [|by vm_compute in Hw].
  exists w'. split; [done|].
  exact (write_definitions_only_appends _ _ _ _ _ _ _ Hw).
Defined.

(** X14.  The debug log of the loop lists the definitions without names (no
    table entry, or an empty list), each once and in their order, and
    nothing else; which definitions these are is settled by the table the
    loop starts from. *)
Theorem write_definitions_logs_the_skipped
    (upper : str → str) (usage_str : HidUsage → str)
    (keys : list (str * key_entry)) (locale : str) (w w' : writer)
    (defs : list definition) :
  write_definitions upper usage_str keys locale w defs = Ok w' →
  log w' = log w ++ (skip_record <$> filter (nameless (table w)) defs).
Proof.
  intros Hw. by apply write_definitions_steps in Hw as (_ & _ & ?).
Qed.

Lemma write_definitions_logs_the_skipped_witness :
  ∃ w',
    write_definitions ascii_upper example_usage_str example_keys (py "de")
      example_writer
      [(mkHidUsage ∅ 7 4, py "a"); (mkHidUsage {[LShift]} 7 4, py "A");
       (mkHidUsage {[RAlt]} 7 8, euro); (mkHidUsage ∅ 7 20, py "q")]
    = Ok w' ∧
    log w' = [DebugSkipped 65 (py "A") (mkHidUsage {[LShift]} 7 4);
              DebugSkipped 113 (py "q") (mkHidUsage ∅ 7 20)].
Proof.
  destruct (write_definitions ascii_upper example_usage_str example_keys
              (py "de") example_writer
              [(mkHidUsage ∅ 7 4, py "a");
               (mkHidUsage {[LShift]} 7 4, py "A");
               (mkHidUsage {[RAlt]} 7 8, euro); (mkHidUsage ∅ 7 20, py "q")])
    as [w'|e] eqn:Hw; [|by vm_compute in Hw].
  exists w'. split; [done|].
  rewrite (write_definitions_logs_the_skipped _ _ _ _ _ _ _ Hw).
  reflexivity.
Defined.

(** X15.  The skip message takes [ord(value)]: when a definition without
    names has a value that is not exactly one character, the loop raises
    [TypeError] at that definition instead of skipping it. *)
Theorem write_definitions_skip_needs_one_character
    (upper : str → str) (usage_str : HidUsage → str)
    (keys : list (str * key_entry)) (locale : str) (w w1 : writer)
    (pre post : list definition) (d : definition) :
  write_definitions upper usage_str keys locale w pre = Ok w1 →
  nameless (table w) d →
  length d.2 ≠ 1 →
  write_definitions upper usage_str keys locale w (pre ++ d :: post)
  = Raise TypeError.
Proof.
  intros Hpre Hn Hlen. rewrite write_definitions_app, Hpre.
  change ((w' ← write_definition upper usage_str keys locale w1 d;
           write_definitions upper usage_str keys locale w' post)
          = Raise TypeError).
  apply write_definitions_steps in Hpre as (Hn1 & _).
  rewrite write_definition_nameless by by apply Hn1.
  by destruct d as [usage [|c [|??]]].
Qed.

Lemma write_definitions_skip_needs_one_character_witness :
  write_definitions ascii_upper example_usage_str example_keys (py "de")
    example_writer
    ([(mkHidUsage ∅ 7 4, py "a")]
     ++ (mkHidUsage ∅ 7 9, py "ch") :: [(mkHidUsage {[RAlt]} 7 8, euro)])
  = Raise TypeError.
Proof.
  destruct (write_definitions ascii_upper example_usage_str example_keys
              (py "de") example_writer [(mkHidUsage ∅ 7 4, py "a")])
    as [w1|e] eqn:Hpre; [|by vm_compute in Hpre].
  apply (write_definitions_skip_needs_one_character _ _ _ _ _ w1 _ _ _ Hpre).
  - by left.
  - simpl. lia.
Defined.

(** X16.  A character with names is written as one blank line, one
    [#define] that binds the first fragment of its table entry (prefixed) to
    the usage code, and one [#define] for every further fragment and every
    alias found in the key table, each bound to that first name and not to
    the usage code; nothing is logged. *)
Theorem named_character_is_written
    (upper : str → str) (usage_str : HidUsage → str)
    (keys : list (str * key_entry)) (locale value : str) (w : writer)
    (usage : HidUsage) (entry : name_entry) (first : str) (rest : list str) :
  table w !! value = Some entry →
  fragments entry = first :: rest →
  write_definition upper usage_str keys locale w (usage, value)
  = Ok {| table := (_get_key_names upper keys (table w) locale value).2;
          io := io w
                ++ [nl;
                    define_usage usage_str (prefixed upper locale first)
                      usage]
                ++ ((λ name, define_alias (prefixed upper locale name)
                               (prefixed upper locale first))
                      <$> (rest ++ alias_names keys (first :: rest)));
          log := log w |}.
Proof.
  intros Hv Hfr. unfold write_definition.
  rewrite (get_key_names_present _ _ _ _ _ _ Hv), Hfr. simpl.
  by rewrite <-list_fmap_compose.
Qed.

Lemma named_character_is_written_witness :
  write_definition ascii_upper example_usage_str example_keys (py "de")
    example_writer (mkHidUsage {[RAlt]} 7 8, euro)
  = Ok (mkWriter
          (<[euro := NameList [py "EURO"; py "EuroSign"]]> example_table)
          [nl;
           py "#define DE_EURO (" ++ [7%N; 8%N] ++ py ")" ++ nl;
           py "#define DE_EuroSign (DE_EURO)" ++ nl]
          []).
Proof.
  exact (named_character_is_written ascii_upper example_usage_str
           example_keys (py "de") euro example_writer
           (mkHidUsage {[RAlt]} 7 8) (NameList [py "EURO"]) (py "EURO") []
           eq_refl eq_refl).
Defined.

(** ** The raw definition builder *)

Section raw_definitions_facts.
Variable get_zmk_name : str → str.
Variable keys : list (str * key_entry).
Variable fuel : nat.

Lemma collect_Ok {A B : Type} (f : A → option (result B)) l ys :
  Forall2 (λ x y, f x = Some (Ok y)) l ys → collect f l = Some (Ok ys).
Proof.
  induction 1 as [|x y l ys Hx _ IH]; simpl; [done|].
  by rewrite Hx, IH.
Qed.

Lemma collect_Raise {A B : Type} (f : A → option (result B)) pre x post e :
  Forall (λ x, ∃ y, f x = Some (Ok y)) pre →
  f x = Some (Raise e) →
  collect f (pre ++ x :: post) = Some (Raise e).
Proof.
  intros Hpre Hx. induction Hpre as [|x' pre [y Hy] _ IH]; simpl.
  - by rewrite Hx.
  - by rewrite Hy, IH.
Qed.

Lemma raw_definition_resolved mods key value hops u :
  resolves keys hops (get_zmk_name key) u → hops < fuel →
  raw_definition get_zmk_name keys fuel mods (key, value)
  = Some (Ok (mkHidUsage (modifiers u ∪ mods) (page u) (id u), value)).
Proof.
  intros Hr Hf. unfold raw_definition.
  rewrite (lookup_usage_resolves _ _ _ _ _ Hr Hf).
  case_decide as Hm; [done|].
  rewrite Hm, (right_id_L ∅ (∪)).
  by destruct u.
Qed.

Lemma raw_definition_failed mods key value hops e :
  fails keys hops (get_zmk_name key) e → hops < fuel →
  raw_definition get_zmk_name keys fuel mods (key, value) = Some (Raise e).
Proof.
  intros Hr Hf. unfold raw_definition.
  by rewrite (lookup_usage_fails _ _ _ _ _ Hr Hf).
Qed.
End raw_definitions_facts.

(** X17.  When every key name of the layout resolves,
    [_get_raw_definitions] yields one definition per key of every keymap, in
    the order of the keymaps and of their keys: the character of the key,
    with the usage code the key name resolves to, its modifier set joined
    with the modifiers of the keymap, page and id unchanged.  (For a keymap
    without modifiers this is the usage code itself.) *)
Theorem raw_definitions_of_resolving_layout
    (get_zmk_name : str → str) (keys : list (str * key_entry)) (fuel : nat)
    (layout : LocaleLayout) :
  length keys ≤ fuel →
  Forall (λ mi, ∃ h u, resolves keys h (get_zmk_name mi.2.1) u)
         (layout_items layout) →
  ∃ defs,
    _get_raw_definitions get_zmk_name keys fuel layout = Some (Ok defs) ∧
    Forall2
      (λ mi d,
         d.2 = mi.2.2 ∧
         ∃ h u, resolves keys h (get_zmk_name mi.2.1) u ∧
                d.1 = mkHidUsage (modifiers u ∪ mi.1) (page u) (id u))
      (layout_items layout) defs.
Proof.
  intros Hfuel Hall. unfold _get_raw_definitions.
  induction Hall as [|[mods [key value]] items (h & u & Hr) _ IH].
  { exists []. split; [done|constructor]. }
  destruct IH as (defs & Hdefs & Hall).
  pose proof (resolves_bound _ _ _ _ Hr) as Hb. simpl in Hr.
  exists ((mkHidUsage (modifiers u ∪ mods) (page u) (id u), value) :: defs).
  split.
  - cbn [collect fst snd].
    rewrite (raw_definition_resolved _ _ _ _ _ _ h u Hr) by lia.
    by rewrite Hdefs.
  - constructor; [|done]. split; [done|]. by exists h, u.
Qed.

Lemma raw_definitions_of_resolving_layout_witness :
  ∃ defs,
    _get_raw_definitions example_zmk_name example_layout_keys 3
      example_layout = Some (Ok defs) ∧
    Forall2
      (λ mi d,
         d.2 = mi.2.2 ∧
         ∃ h u, resolves example_layout_keys h (example_zmk_name mi.2.1) u ∧
                d.1 = mkHidUsage (modifiers u ∪ mi.1) (page u) (id u))
      (layout_items example_layout) defs.
Proof.
  apply raw_definitions_of_resolving_layout; [simpl; lia|].
  assert (resolves example_layout_keys 0 (py "A") (mkHidUsage ∅ 7 4)) as HA
    by by constructor.
  assert (resolves example_layout_keys 1 (py "E") (mkHidUsage ∅ 7 8)) as HE.
  { apply resolves_alias with (mkKeyAlias (py "EE")); [done|].
    by constructor. }
  change (layout_items example_layout)
    with [(∅ : gset Modifier, (py "a", py "a")); (∅, (py "e", py "e"));
          ({[LShift]}, (py "a", py "A"))].
  repeat apply Forall_cons_2; [by eexists _, _..|constructor].
Defined.

(** The raw definitions of the example layout. *)
Example raw_definitions_run :
  _get_raw_definitions example_zmk_name example_layout_keys 3 example_layout
  = Some (Ok [(mkHidUsage ∅ 7 4, py "a");
              (mkHidUsage ∅ 7 8, py "e");
              (mkHidUsage {[LShift]} 7 4, py "A")]).
Proof. vm_compute. reflexivity. Qed.

(** X18.  The first key name, in the order of the keymaps and of their
    keys, that does not resolve ends [_get_raw_definitions]: the exception
    of its lookup ([KeyError] for a missing name, [ValueError] for an entry
    of another type) is raised and no list of definitions is returned,
    whatever follows. *)
Theorem raw_definitions_first_failure
    (get_zmk_name : str → str) (keys : list (str * key_entry)) (fuel : nat)
    (layout : LocaleLayout)
    (pre post : list (gset Modifier * (str * str)))
    (mi : gset Modifier * (str * str)) (hops : nat) (e : exn) :
  length keys < fuel →
  layout_items layout = pre ++ mi :: post →
  Forall (λ mi, ∃ h u, resolves keys h (get_zmk_name mi.2.1) u) pre →
  fails keys hops (get_zmk_name mi.2.1) e →
  _get_raw_definitions get_zmk_name keys fuel layout = Some (Raise e).
Proof.
  intros Hfuel Hitems Hpre Hf. unfold _get_raw_definitions.
  rewrite Hitems. apply collect_Raise.
  - eapply Forall_impl; [exact Hpre|].
    intros [mods [key value]] (h & u & Hr). simpl in *.
    pose proof (resolves_bound _ _ _ _ Hr).
    eexists. by apply (raw_definition_resolved _ _ _ _ _ _ h u); [|lia].
  - destruct mi as [mods [key value]]. simpl in *.
    pose proof (fails_bound _ _ _ _ Hf).
    by apply (raw_definition_failed _ _ _ _ _ _ hops); [|lia].
Qed.

Lemma raw_definitions_first_failure_witness :
  _get_raw_definitions example_zmk_name example_layout_keys 4
    (mkLocaleLayout [py "German"]
       [mkKeyMap ∅ [(py "a", py "a"); (py "z", py "z"); (py "e", py "e")]])
  = Some (Raise (KeyError (py "Z"))).
Proof.
  apply (raw_definitions_first_failure example_zmk_name example_layout_keys
           4 _ [(∅, (py "a", py "a"))] [(∅, (py "e", py "e"))]
           (∅, (py "z", py "z")) 0).
  - simpl. lia.
  - reflexivity.
  - repeat constructor. simpl. eexists _, _.
    repeat (econstructor; try reflexivity).
  - by constructor.
Defined.
